(** * simple-git: the task dispatcher of [src/simple-git.ts]

    A shallow embedding of class [SimpleGit]: the task queue executor
    ([process]), the chain sequencer ([processChain]), the registry of
    active queues ([onQueueComplete]) and the public operations that
    route between the two ([clone], [mirror], [status], [stashList],
    [stash]).

    JavaScript runs the class on one thread.  The only things that happen
    "later" are the settlements of the promises returned by
    [runner.run]; the order in which they settle is not under the control
    of the class.  The embedding is therefore a state machine: a [State]
    holds the fields of the instance together with the queue objects it
    created, an [Input] is either a call into the class or the settlement
    of one outstanding runner call, and [step] is the code that runs to
    completion on that input.  Jobs the code defers with [setImmediate] or
    to the microtask queue (the start of the workers of a queue, the next
    continuation of the chain) are run at the end of the step that
    scheduled them: they touch one queue or the chain only, and nothing the
    class does in between can observe the delay.

    The class builds on [queue] of the async library, which is not part
    of the repository.  It is modelled as version 2 of the library
    documents it, the version whose queues take [drain] and [error] by
    assignment: the worker is called with a task and a callback; when the
    callback is called the queue calls [error] if it was handed an error,
    calls [drain] if no task waits or runs, and starts waiting tasks up to
    the concurrency limit; pushing an empty array to an idle queue calls
    [drain]; a concurrency of zero is refused. *)

From Stdlib Require Import String List Arith Bool Lia Permutation.
From stdpp Require Import base list.
Import ListNotations.

Set Default Proof Using "Type".

(** ** Values, errors and tasks *)

(** The JavaScript values the dispatcher handles: raw runner output is a
    string, the accumulator is an array, a missing result is [undefined]. *)
#[warnings="-register-all"]
Inductive Value : Type :=
| VUndefined
| VString (s : string)
| VArray (items : list Value).

(** What is thrown, or what a promise is rejected with. *)
Inductive Error : Type :=
| MkError (message : string).

(** The result of code that may throw, or of a promise once settled. *)
Inductive Outcome (A : Type) : Type :=
| Ok (a : A)
| Fail (e : Error).
Arguments Ok {A} a.
Arguments Fail {A} e.

Definition Command := list string.
Definition Options := list (string * string).

(** [handler(err, data)]: [err] is [None] for JavaScript's [null]; the
    outcome says whether the call returned or threw. *)
Definition Handler := option Error -> Value -> Outcome unit.

(** interfaces/task: a command for the runner, an optional parser of its
    output and an optional completion handler.  A parser is JavaScript
    code: called on the output it returns a value or throws. *)
Record Task : Type := mkTask {
  command : Command;
  options : Options;
  parser : option (string -> Outcome Value);
  handler : option Handler
}.

(** interfaces/command-runner: what the promise of [run(command, options)]
    settles with. *)
Definition Runner := Command -> Options -> Outcome string.

(** The argument of [process]: declared [Task], tested against arrays. *)
Inductive TaskGroup : Type :=
| Single (t : Task)
| Group (ts : list Task).

(** Modelled from the spec: [varType] and [arrType] of util/arguments are
    not among the sources.  [varType] is the type tag of a value and
    [arrType] the tag of arrays, as their use in [firstResult]
    ([varType(items) === arrType ? items[0] : undefined]) requires. *)
Class VarType (A : Type) := varType : A -> string.

Definition arrType : string := "[object Array]".

#[global] Instance varType_TaskGroup : VarType TaskGroup := fun g =>
  match g with
  | Single _ => "[object Object]"%string
  | Group _ => "[object Array]"%string
  end.

#[global] Instance varType_Value : VarType Value := fun v =>
  match v with
  | VUndefined => "[object Undefined]"%string
  | VString _ => "[object String]"%string
  | VArray _ => "[object Array]"%string
  end.

(** [v[0]]: throws a TypeError on [undefined]. *)
Definition index0 (v : Value) : Outcome Value :=
  match v with
  | VUndefined => Fail (MkError "TypeError: Cannot read property '0' of undefined")
  | VString EmptyString => Ok VUndefined
  | VString (String c _) => Ok (VString (String c EmptyString))
  | VArray [] => Ok VUndefined
  | VArray (x :: _) => Ok x
  end.

Definition firstResult (items : Value) : Value :=
  if String.eqb (varType items) arrType
  then match index0 items with Ok v => v | Fail _ => VUndefined end
  else VUndefined.

Definition isAsyncHandler (task : Task) : bool :=
  match handler task with Some _ => true | None => false end.

Definition isPromiseHandler (task : Task) : bool :=
  match handler task with Some _ => false | None => true end.

(** ** Queues *)

(** Queues are named by their position in the heap of the instance. *)
Abbreviation QId := nat (only parsing).

(** Who awaits the future of a queue: the caller of [process], or the
    continuation of the chain that shifted step [k] off [pending]. *)
Inductive Owner : Type :=
| Direct
| Step (k : nat).

(** The promise returned by [process]. *)
Inductive Settlement : Type :=
| Pending
| Resolved (v : Value)
| Rejected (e : Error).

(** A task in a queue, with the position at which it was pushed. *)
Abbreviation Slot := (nat * Task)%type (only parsing).

(** One [queue(process, this.concurrency)] of the async library together
    with the closure of the promise executor that created it: the tasks
    not yet started, the workers in flight, the [results] array, the flag
    [resolveFirst] and the promise [ok]/[fail] settle. *)
Record Queue : Type := mkQueue {
  q_tasks : list Slot;
  q_workers : list Slot;
  results : list Value;
  resolveFirst : bool;
  future : Settlement;
  q_owner : Owner
}.

(** What the instance did, newest first. *)
Inductive Event : Type :=
| RunnerStart (o : Owner) (q : QId) (i : nat)
| RunnerEnd (o : Owner) (q : QId) (i : nat)
| HandlerRan (k : nat) (err : option Error) (data : Value) (r : Outcome unit).

(** [this.chain]: fulfilled, waiting for the continuation of step [k]
    (which captured [task] and awaits the future of queue [q]), or
    rejected. *)
Inductive ChainStatus : Type :=
| ChainFulfilled
| ChainAwaiting (q : QId) (k : nat) (task : Task)
| ChainRejected (e : Error).

(** The instance: the runner and the concurrency limit it was
    constructed with, [this.queues], [this.chain] and [this.pending],
    and the queue objects created so far.  [chain_then] holds the
    continuations registered on [this.chain] by [then] that have not run
    yet, each with the [task] it captured; [serial] numbers the calls of
    [processChain], and the number of its call travels with each chained
    task so that the log can name the step. *)
Record State : Type := mkState {
  runner : Runner;
  concurrency : positive;
  queues : list QId;
  chain : ChainStatus;
  chain_then : list Slot;
  pending : list Slot;
  heap : list Queue;
  serial : nat;
  log : list Event
}.

Definition init (r : Runner) (n : positive) : State :=
  mkState r n [] ChainFulfilled [] [] [] 0 [].

Definition set_queues (f : list QId -> list QId) (st : State) : State :=
  mkState (runner st) (concurrency st) (f (queues st)) (chain st)
    (chain_then st) (pending st) (heap st) (serial st) (log st).

Definition set_chain (c : ChainStatus) (st : State) : State :=
  mkState (runner st) (concurrency st) (queues st) c
    (chain_then st) (pending st) (heap st) (serial st) (log st).

Definition set_chain_then (l : list Slot) (st : State) : State :=
  mkState (runner st) (concurrency st) (queues st) (chain st)
    l (pending st) (heap st) (serial st) (log st).

Definition set_pending (l : list Slot) (st : State) : State :=
  mkState (runner st) (concurrency st) (queues st) (chain st)
    (chain_then st) l (heap st) (serial st) (log st).

Definition set_heap (f : list Queue -> list Queue) (st : State) : State :=
  mkState (runner st) (concurrency st) (queues st) (chain st)
    (chain_then st) (pending st) (f (heap st)) (serial st) (log st).

Definition set_serial (n : nat) (st : State) : State :=
  mkState (runner st) (concurrency st) (queues st) (chain st)
    (chain_then st) (pending st) (heap st) n (log st).

Definition emit (es : list Event) (st : State) : State :=
  mkState (runner st) (concurrency st) (queues st) (chain st)
    (chain_then st) (pending st) (heap st) (serial st) (es ++ log st).

Definition set_future (s : Settlement) (Q : Queue) : Queue :=
  mkQueue (q_tasks Q) (q_workers Q) (results Q) (resolveFirst Q) s (q_owner Q).

(** [ok(v)] and [fail(e)] of a promise: only the first call settles it. *)
Definition ok (v : Value) (Q : Queue) : Queue :=
  match future Q with
  | Pending => set_future (Resolved v) Q
  | _ => Q
  end.

Definition fail (e : Error) (Q : Queue) : Queue :=
  match future Q with
  | Pending => set_future (Rejected e) Q
  | _ => Q
  end.

(** ** The registry of active queues *)

Fixpoint indexOf (q : QId) (l : list QId) : option nat :=
  match l with
  | [] => None
  | x :: l' => if Nat.eqb x q then Some 0 else option_map S (indexOf q l')
  end.

(** [onQueueComplete]: [splice(indexOf, 1)] when the queue is found. *)
Definition onQueueComplete (q : QId) (st : State) : State :=
  match indexOf q (queues st) with
  | Some i => set_queues (delete i) st
  | None => st
  end.

(** ** The task queue executor *)

(** The loop of [q.process()]: while fewer than [limit] workers run and a
    task waits, shift it and start a worker on it.  Returns the slots
    started, in order. *)
Fixpoint shiftTasks (limit : nat) (waiting workers : list Slot) : list Slot :=
  match waiting with
  | [] => []
  | s :: rest =>
      if length workers <? limit
      then s :: shiftTasks limit rest (workers ++ [s])
      else []
  end.

(** [q.process()]: each worker started calls [runner.run] at once. *)
Definition queueProcess (q : QId) (st : State) : State :=
  match heap st !! q with
  | None => st
  | Some Q =>
      let started := shiftTasks (Pos.to_nat (concurrency st)) (q_tasks Q) (q_workers Q) in
      let Q' := mkQueue (drop (length started) (q_tasks Q)) (q_workers Q ++ started)
                  (results Q) (resolveFirst Q) (future Q) (q_owner Q) in
      emit (rev (map (fun s => RunnerStart (q_owner Q) q (fst s)) started))
        (set_heap (<[q := Q']>) st)
  end.

(** [q.drain]. *)
Definition queueDrain (q : QId) (st : State) : State :=
  match heap st !! q with
  | None => st
  | Some Q =>
      let v := if resolveFirst Q then firstResult (VArray (results Q))
               else VArray (results Q) in
      set_heap (<[q := ok v Q]>) (onQueueComplete q st)
  end.

(** [q.error]. *)
Definition queueError (q : QId) (err : Error) (st : State) : State :=
  match heap st !! q with
  | None => st
  | Some Q => set_heap (<[q := fail err Q]>) (onQueueComplete q st)
  end.

(** [q.idle()]. *)
Definition queueIdle (Q : Queue) : bool :=
  Nat.eqb (length (q_workers Q) + length (q_tasks Q)) 0.

Fixpoint findSlot (i : nat) (l : list Slot) : option Task :=
  match l with
  | [] => None
  | (j, t) :: l' => if Nat.eqb j i then Some t else findSlot i l'
  end.

Fixpoint removeSlot (i : nat) (l : list Slot) : list Slot :=
  match l with
  | [] => []
  | (j, t) :: l' => if Nat.eqb j i then l' else (j, t) :: removeSlot i l'
  end.

(** [task.parser ? task.parser(data) : data]: the value, or what the
    parser throws. *)
Definition parsed (task : Task) (data : string) : Outcome Value :=
  match parser task with
  | Some p => p data
  | None => Ok (VString data)
  end.

(** The [try] block of the worker: the value it pushes, or what its
    [catch] takes as [err], which is what the runner call was rejected
    with or what the parser threw on its output. *)
Definition taskOutcome (r : Runner) (task : Task) : Outcome Value :=
  match r (command task) (options task) with
  | Ok data => parsed task data
  | Fail e => Fail e
  end.

(** The worker of the queue from its [await] on: the runner call of slot
    [i] of queue [q] settles, the result or [undefined] is pushed, and
    [callback(err)] lets the queue signal the error, drain if idle, and
    start the next workers. *)
Definition workerDone (q : QId) (i : nat) (st : State) : State :=
  match heap st !! q with
  | None => st
  | Some Q =>
      match findSlot i (q_workers Q) with
      | None => st
      | Some task =>
          let out := taskOutcome (runner st) task in
          let v := match out with Ok v => v | Fail _ => VUndefined end in
          let Q1 := mkQueue (q_tasks Q) (removeSlot i (q_workers Q))
                      (results Q ++ [v]) (resolveFirst Q) (future Q) (q_owner Q) in
          let st1 := emit [RunnerEnd (q_owner Q) q i] (set_heap (<[q := Q1]>) st) in
          let st2 := match out with
                     | Ok _ => st1
                     | Fail e => queueError q e st1
                     end in
          let st3 := if queueIdle Q1 then queueDrain q st2 else st2 in
          queueProcess q st3
      end
  end.

(** The array [q.push(tasks)] works on. *)
Definition tasksOf (g : TaskGroup) : list Task :=
  match g with
  | Single t => [t]
  | Group ts => ts
  end.

Definition slotsOf (ts : list Task) : list Slot := imap (fun i t => (i, t)) ts.

(** [process(tasks)]: the promise executor creates the queue, registers
    it and pushes the tasks; pushing nothing to an idle queue makes the
    library call [drain] straight away.  The promise is named by the
    queue. *)
Definition process (tasks : TaskGroup) (o : Owner) (st : State) : QId * State :=
  let resolveFirst := String.eqb (varType tasks) arrType in
  let q := length (heap st) in
  let Q := mkQueue (slotsOf (tasksOf tasks)) [] [] resolveFirst Pending o in
  let st1 := set_queues (fun l => l ++ [q]) (set_heap (fun h => h ++ [Q]) st) in
  (q, match tasksOf tasks with
      | [] => queueDrain q st1
      | _ :: _ => queueProcess q st1
      end).

(** ** The chain sequencer *)

(** [task.handler(...)]; a task without a handler makes the call throw. *)
Definition invoke (k : nat) (task : Task) (err : option Error) (data : Value)
    (st : State) : Outcome unit * State :=
  match handler task with
  | None => (Fail (MkError "TypeError: task.handler is not a function"), st)
  | Some h => let r := h err data in (r, emit [HandlerRan k err data r] st)
  end.

(** [.catch(err => task.handler(err))]: the chain is fulfilled when the
    handler returns and rejected with what it throws. *)
Definition onRejected (k : nat) (task : Task) (err : Error) (st : State) : State :=
  let (r, st1) := invoke k task (Some err) VUndefined st in
  match r with
  | Ok _ => set_chain ChainFulfilled st1
  | Fail e => set_chain (ChainRejected e) st1
  end.

(** [.then(data => task.handler(null, data[0]))], followed by the catch. *)
Definition onFulfilled (k : nat) (task : Task) (data : Value) (st : State) : State :=
  match index0 data with
  | Fail e => onRejected k task e st
  | Ok v =>
      let (r, st1) := invoke k task None v st in
      match r with
      | Ok _ => set_chain ChainFulfilled st1
      | Fail e => onRejected k task e st1
      end
  end.

(** The reactions on the promise of [process(next)] once it has settled. *)
Definition chainReact (st : State) : State :=
  match chain st with
  | ChainAwaiting q k task =>
      match heap st !! q with
      | Some Q =>
          match future Q with
          | Pending => st
          | Resolved data => onFulfilled k task data st
          | Rejected err => onRejected k task err st
          end
      | None => st
      end
  | _ => st
  end.

(** The continuations registered on a fulfilled chain run in order: each
    shifts [pending]; with nothing to shift it resolves at once and the
    following one runs, otherwise the chain waits for [process(next)]. *)
Fixpoint runContinuations (cs : list Slot) (st : State) : State :=
  match cs with
  | [] => set_chain_then [] st
  | (k, task) :: rest =>
      match pending st with
      | [] => runContinuations rest st
      | next :: pending' =>
          let (q, st1) := process (Single (snd next)) (Step (fst next))
                            (set_pending pending' st) in
          set_chain_then rest (set_chain (ChainAwaiting q k task) st1)
      end
  end.

Definition chainAdvance (st : State) : State :=
  match chain st with
  | ChainFulfilled => runContinuations (chain_then st) st
  | _ => st
  end.

(** [processChain(task)]. *)
Definition processChain (task : Task) (st : State) : State :=
  let k := serial st in
  chainAdvance
    (set_serial (S k)
       (set_chain_then (chain_then st ++ [(k, task)])
          (set_pending (pending st ++ [(k, task)]) st))).

(** ** The machine *)

Inductive Input : Type :=
| Submit (g : TaskGroup)
| Enqueue (t : Task)
| Settle (q : QId) (i : nat).

Definition step (st : State) (inp : Input) : State :=
  match inp with
  | Submit g => snd (process g Direct st)
  | Enqueue t => processChain t st
  | Settle q i => chainAdvance (chainReact (workerDone q i st))
  end.

Definition run (st : State) (inputs : list Input) : State :=
  fold_left step inputs st.

(** ** The public operations *)

(** An argument of a public operation, by its run-time type. *)
Inductive Arg : Type :=
| AString (s : string)
| AArray (items : list string)
| AOptions (o : Options)
| AFunction (h : Handler)
| AOther.

(** [SimpleGitReturn]: the instance itself, or the promise of
    [process]. *)
Inductive SimpleGitReturn : Type :=
| ReturnsThis
| ReturnsPromise (q : QId).

(** The loop of [clone] over [args]: the strings before the first
    argument that is not a string. *)
Fixpoint leadingStrings (args : list Arg) : list string :=
  match args with
  | AString s :: rest => s :: leadingStrings rest
  | _ => []
  end.

Section Operations.

(** The helpers of util/arguments and the task builders of commands/
    are not among the sources; the operations are defined for any
    helpers and builders. *)
Variable trailingArrayArgument : list Arg -> list string.
Variable trailingOptionsArgument : list Arg -> Options.
Variable trailingFunctionArgument : list Arg -> option Handler.
Variable commands_clone : list string -> Options -> option Handler -> Task.
Variable commands_status : option Handler -> Task.
Variable commands_stashList : list string -> Options -> option Handler -> Task.
Variable commands_stash : list string -> Options -> option Handler -> Task.

Definition clone (args : list Arg) (st : State) : SimpleGitReturn * State :=
  let commands := trailingArrayArgument args ++ leadingStrings args in
  let task := commands_clone commands (trailingOptionsArgument args)
                (trailingFunctionArgument args) in
  if negb (isAsyncHandler task)
  then let (q, st') := process (Single task) Direct st in (ReturnsPromise q, st')
  else (ReturnsThis, processChain task st).

Definition mirror (repoPath localPath : string) (args : list Arg) (st : State)
    : SimpleGitReturn * State :=
  clone (AString repoPath :: AString localPath :: AArray ["--mirror"%string] :: args) st.

Definition status (args : list Arg) (st : State) : SimpleGitReturn * State :=
  let task := commands_status (trailingFunctionArgument args) in
  if negb (isAsyncHandler task)
  then let (q, st') := process (Single task) Direct st in (ReturnsPromise q, st')
  else (ReturnsThis, processChain task st).

Definition stashList (args : list Arg) (st : State) : SimpleGitReturn * State :=
  let task := commands_stashList (trailingArrayArgument args)
                (trailingOptionsArgument args) (trailingFunctionArgument args) in
  if negb (isAsyncHandler task)
  then let (q, st') := process (Single task) Direct st in (ReturnsPromise q, st')
  else (ReturnsThis, processChain task st).

Definition stash (args : list Arg) (st : State) : SimpleGitReturn * State :=
  let task := commands_stash (trailingArrayArgument args)
                (trailingOptionsArgument args) (trailingFunctionArgument args) in
  if negb (isAsyncHandler task)
  then let (q, st') := process (Single task) Direct st in (ReturnsPromise q, st')
  else (ReturnsThis, processChain task st).

(** A call of a public operation. *)
Inductive Call : Type :=
| CallClone (args : list Arg)
| CallMirror (repoPath localPath : string) (args : list Arg)
| CallStatus (args : list Arg)
| CallStashList (args : list Arg)
| CallStash (args : list Arg).

Definition perform (c : Call) (st : State) : SimpleGitReturn * State :=
  match c with
  | CallClone args => clone args st
  | CallMirror repoPath localPath args => mirror repoPath localPath args st
  | CallStatus args => status args st
  | CallStashList args => stashList args st
  | CallStash args => stash args st
  end.

(** The task the builder of each operation is handed the arguments
    for. *)
Definition cloneTask (args : list Arg) : Task :=
  commands_clone (trailingArrayArgument args ++ leadingStrings args)
    (trailingOptionsArgument args) (trailingFunctionArgument args).

Definition builtTask (c : Call) : Task :=
  match c with
  | CallClone args => cloneTask args
  | CallMirror repoPath localPath args =>
      cloneTask (AString repoPath :: AString localPath
                   :: AArray ["--mirror"%string] :: args)
  | CallStatus args => commands_status (trailingFunctionArgument args)
  | CallStashList args =>
      commands_stashList (trailingArrayArgument args)
        (trailingOptionsArgument args) (trailingFunctionArgument args)
  | CallStash args =>
      commands_stash (trailingArrayArgument args)
        (trailingOptionsArgument args) (trailingFunctionArgument args)
  end.

(** The two routes, as section 4.3 of the specification words them:
    a task with a handler goes to the chain sequencer and the instance
    is returned, any other goes to the executor and its future is
    returned. *)
Definition routeByHandler (task : Task) (st : State) : SimpleGitReturn * State :=
  match handler task with
  | Some _ => (ReturnsThis, step st (Enqueue task))
  | None => (ReturnsPromise (length (heap st)), step st (Submit (Single task)))
  end.

(** [mirror] as the specification words it: [clone] with the flag
    [--mirror] injected after the two paths. *)
Definition mirrorAsSpecified (repoPath localPath : string) (args : list Arg)
    (st : State) : SimpleGitReturn * State :=
  clone (AString repoPath :: AString localPath :: AArray ["--mirror"%string] :: args) st.

End Operations.

(** ** Reading the log *)

(** The slots of queue [q] whose runner call has settled, in the order in
    which they settled. *)
Fixpoint completions (q : QId) (lg : list Event) : list nat :=
  match lg with
  | [] => []
  | RunnerEnd _ q' i :: older =>
      if Nat.eqb q' q then completions q older ++ [i] else completions q older
  | _ :: older => completions q older
  end.

(** The runner calls made for steps of the chain that have not settled. *)
Fixpoint openRuns (lg : list Event) : nat :=
  match lg with
  | [] => 0
  | RunnerStart (Step _) _ _ :: older => S (openRuns older)
  | RunnerEnd (Step _) _ _ :: older => pred (openRuns older)
  | _ :: older => openRuns older
  end.

(** The steps of the chain a runner call was made for, oldest first. *)
Fixpoint runnerCalls (lg : list Event) : list nat :=
  match lg with
  | [] => []
  | RunnerStart (Step k) _ _ :: older => runnerCalls older ++ [k]
  | _ :: older => runnerCalls older
  end.

(** The invocations of handlers, oldest first: the step and the two
    arguments. *)
Fixpoint handlerCalls (lg : list Event) : list (nat * option Error * Value) :=
  match lg with
  | [] => []
  | HandlerRan k err data _ :: older => handlerCalls older ++ [(k, err, data)]
  | _ :: older => handlerCalls older
  end.

Definition handlerRan (k : nat) (lg : list Event) : Prop :=
  exists err data r, In (HandlerRan k err data r) lg.

Definition runnerEnded (k : nat) (lg : list Event) : Prop :=
  exists q i, In (RunnerEnd (Step k) q i) lg.

(** The tasks handed to [processChain], in order. *)
Fixpoint enqueued (inputs : list Input) : list Task :=
  match inputs with
  | [] => []
  | Enqueue t :: rest => t :: enqueued rest
  | _ :: rest => enqueued rest
  end.

(** What a step's handler is owed: [(null, result)] or [(err)]. *)
Definition delivery (r : Runner) (task : Task) : option Error * Value :=
  match taskOutcome r task with
  | Ok v => (None, v)
  | Fail e => (Some e, VUndefined)
  end.

(** The handler of [task] returns when it is invoked with what the step
    is owed. *)
Definition returnsOnDelivery (r : Runner) (task : Task) : Prop :=
  exists h u, handler task = Some h /\
    h (fst (delivery r task)) (snd (delivery r task)) = Ok u.

(** The error of the first slot, in the order [done], whose task fails. *)
Fixpoint firstFailure (r : Runner) (ts : list Task) (done : list nat) : option Error :=
  match done with
  | [] => None
  | i :: rest =>
      match ts !! i with
      | Some t =>
          match taskOutcome r t with
          | Fail e => Some e
          | Ok _ => firstFailure r ts rest
          end
      | None => firstFailure r ts rest
      end
  end.

(** What slot [i] of a group leaves in the accumulator. *)
Definition resultAt (r : Runner) (ts : list Task) (i : nat) : Value :=
  match ts !! i with
  | Some t => match taskOutcome r t with Ok v => v | Fail _ => VUndefined end
  | None => VUndefined
  end.

Definition isPending (Q : Queue) : bool :=
  match future Q with Pending => true | _ => false end.

Definition pendingAt (h : list Queue) (q : QId) : bool :=
  match h !! q with Some Q => isPending Q | None => false end.

(** ** The queue as a function *)

(** [splice(indexOf(q), 1)] on the registry. *)
Definition deregister (q : QId) (l : list QId) : list QId :=
  match indexOf q l with
  | Some i => delete i l
  | None => l
  end.

Definition drainValue (Q : Queue) : Value :=
  if resolveFirst Q then firstResult (VArray (results Q)) else VArray (results Q).

Definition startQ (limit : nat) (Q : Queue) : Queue :=
  let started := shiftTasks limit (q_tasks Q) (q_workers Q) in
  mkQueue (drop (length started) (q_tasks Q)) (q_workers Q ++ started)
    (results Q) (resolveFirst Q) (future Q) (q_owner Q).

Definition pushResult (i : nat) (out : Outcome Value) (Q : Queue) : Queue :=
  mkQueue (q_tasks Q) (removeSlot i (q_workers Q))
    (results Q ++ [match out with Ok v => v | Fail _ => VUndefined end])
    (resolveFirst Q) (future Q) (q_owner Q).

Definition signal (out : Outcome Value) (Q : Queue) : Queue :=
  let Q' := match out with Ok _ => Q | Fail e => fail e Q end in
  if queueIdle Q then ok (drainValue Q') Q' else Q'.

Definition workerDoneQ (limit i : nat) (out : Outcome Value) (Q : Queue) : Queue :=
  startQ limit (signal out (pushResult i out Q)).

Definition startEvents (q : QId) (Q : Queue) (limit : nat) : list Event :=
  rev (map (fun s => RunnerStart (q_owner Q) q (fst s))
         (shiftTasks limit (q_tasks Q) (q_workers Q))).

(** The registry after the callback of a worker. *)
Definition signalRegistry (q : QId) (out : Outcome Value) (idle : bool)
    (l : list QId) : list QId :=
  let l' := match out with Ok _ => l | Fail _ => deregister q l end in
  if idle then deregister q l' else l'.

(** ** The chain as a function *)

(** What [.catch(err => task.handler(err))] logs and leaves the chain
    in. *)
Definition rejectedReaction (k : nat) (task : Task) (err : Error)
    : list Event * ChainStatus :=
  match handler task with
  | None => ([], ChainRejected (MkError "TypeError: task.handler is not a function"))
  | Some h =>
      let r := h (Some err) VUndefined in
      ([HandlerRan k (Some err) VUndefined r],
       match r with Ok _ => ChainFulfilled | Fail e => ChainRejected e end)
  end.

(** What [.then(data => task.handler(null, data[0]))] and the catch after
    it log and leave the chain in. *)
Definition fulfilledReaction (k : nat) (task : Task) (data : Value)
    : list Event * ChainStatus :=
  match index0 data with
  | Fail e => rejectedReaction k task e
  | Ok v =>
      match handler task with
      | None =>
          rejectedReaction k task
            (MkError "TypeError: task.handler is not a function")
      | Some h =>
          match h None v with
          | Ok u => ([HandlerRan k None v (Ok u)], ChainFulfilled)
          | Fail e =>
              (fst (rejectedReaction k task e) ++ [HandlerRan k None v (Fail e)],
               snd (rejectedReaction k task e))
          end
      end
  end.

(** The queue [process] creates for one step of the chain, once its
    worker has started. *)
Definition stepQueue (k : nat) (task : Task) : Queue :=
  mkQueue [] [(0, task)] [] false Pending (Step k).

(** ** Invariants *)

(** The state of the queue of a group [g], given the slots [done]. *)
Record QueueInv (r : Runner) (limit : nat) (g : TaskGroup) (Q : Queue)
    (done : list nat) : Prop := {
  qi_tasks : q_tasks Q =
             drop (length done + length (q_workers Q)) (slotsOf (tasksOf g));
  qi_perm : Permutation (done ++ map fst (q_workers Q))
              (seq 0 (length done + length (q_workers Q)));
  qi_bound : length done + length (q_workers Q) <= length (tasksOf g);
  qi_workers : Forall (fun s : Slot => tasksOf g !! fst s = Some (snd s)) (q_workers Q);
  qi_results : results Q = map (resultAt r (tasksOf g)) done;
  qi_flag : resolveFirst Q = String.eqb (varType g) arrType;
  qi_future : future Q =
              match firstFailure r (tasksOf g) done with
              | Some e => Rejected e
              | None => if Nat.eqb (length done) (length (tasksOf g))
                        then Resolved (drainValue Q) else Pending
              end;
  qi_limit : length (q_workers Q) <= limit;
  qi_serial : limit = 1 -> done = seq 0 (length done)
}.

(** What every method but the worker of queue [q] leaves alone: the
    runner, the limit, the object of queue [q] and the completions logged
    for it. *)
Definition frame (q : QId) (st st' : State) : Prop :=
  runner st' = runner st /\ concurrency st' = concurrency st /\
  length (heap st) <= length (heap st') /\
  (q < length (heap st) -> heap st' !! q = heap st !! q) /\
  completions q (log st') = completions q (log st).

(** [v] is what [task] leaves in the accumulator when its runner call
    succeeds with [data]: [data], parsed when the task has a parser, or
    [undefined] when the parser throws on it. *)
Definition taskResult (r : Runner) (task : Task) (v : Value) : Prop :=
  exists data, r (command task) (options task) = Ok data /\
    match parsed task data with
    | Ok v' => v = v'
    | Fail _ => v = VUndefined
    end.

(** ** A runner and tasks to run the model on *)

Definition demoRunner : Runner := fun c _ =>
  match c with
  | [] => Ok ""%string
  | x :: _ => if String.eqb x "bad" then Fail (MkError "boom")
              else Ok (String.append "ok-" x)
  end.

Definition demoTask (name : string) : Task := mkTask [name] [] None None.

Definition demoChained (name : string) (h : Handler) : Task :=
  mkTask [name] [] None (Some h).

(** A task whose parser throws on whatever the runner returns. *)
Definition demoUnparsable (name : string) : Task :=
  mkTask [name] [] (Some (fun _ => Fail (MkError "parse"))) None.

Definition quietHandler : Handler := fun _ _ => Ok tt.

(** [(err) => { if (err) throw err; }]. *)
Definition rethrowingHandler : Handler := fun err _ =>
  match err with
  | Some e => Fail e
  | None => Ok tt
  end.

Definition throwingHandler : Handler := fun _ _ => Fail (MkError "handler").

(** Throws on a result, returns on an error. *)
Definition pickyHandler : Handler := fun err _ =>
  match err with
  | Some _ => Ok tt
  | None => Fail (MkError "picky")
  end.

(** The queues of a heap whose future is pending, oldest first. *)
Definition registryOf (h : list Queue) : list QId :=
  List.filter (pendingAt h) (seq 0 (length h)).

(** ** The invariant of the chain *)

(** What the continuation of step [k] logs once [process(next)] has
    settled, and what it leaves the chain in. *)
Definition reactionOf (r : Runner) (k : nat) (task : Task)
    : list Event * ChainStatus :=
  match taskOutcome r task with
  | Ok v => fulfilledReaction k task (VArray [v])
  | Fail e => rejectedReaction k task e
  end.

(** The future of the queue of a step once its runner call has
    settled. *)
Definition stepSettled (r : Runner) (k : nat) (task : Task) : Queue :=
  match taskOutcome r task with
  | Ok v => mkQueue [] [] [v] false (Resolved (VArray [v])) (Step k)
  | Fail e => mkQueue [] [] [VUndefined] false (Rejected e) (Step k)
  end.

(** In the log, newest first: when a runner call is made for a step of
    the chain no other such call is outstanding and every earlier step
    has had its runner call settled and its handler run; and a runner
    call of a step settles after it was made. *)
Fixpoint sequenced (lg : list Event) : Prop :=
  match lg with
  | [] => True
  | e :: earlier =>
      match e with
      | RunnerStart (Step k) _ _ =>
          openRuns earlier = 0 /\
          forall j, j < k -> handlerRan j earlier /\ runnerEnded j earlier
      | RunnerEnd (Step k) q i => In (RunnerStart (Step k) q i) earlier
      | _ => True
      end /\ sequenced earlier
  end.

(** Events that are not runner calls of the chain. *)
Definition offChain (e : Event) : Prop :=
  match e with
  | RunnerStart (Step _) _ _ | RunnerEnd (Step _) _ _ => False
  | _ => True
  end.

Definition attempted (st : State) : nat := length (runnerCalls (log st)).

Definition settledSteps (st : State) : nat :=
  match chain st with
  | ChainAwaiting _ _ _ => pred (attempted st)
  | _ => attempted st
  end.

(** The state of the chain between two inputs, [ts] being the tasks
    handed to [processChain] so far. *)
Record ChainInv (ts : list Task) (st : State) : Prop := {
  ci_serial : serial st = length ts;
  ci_pending : pending st = chain_then st;
  ci_then : chain_then st = drop (length ts - length (chain_then st)) (slotsOf ts);
  ci_runs : runnerCalls (log st) = seq 0 (attempted st);
  ci_handlers :
    handlerCalls (log st) =
    concat (imap (fun k t => handlerCalls (fst (reactionOf (runner st) k t)))
              (take (settledSteps st) ts));
  ci_status :
    match chain st with
    | ChainFulfilled =>
        chain_then st = [] /\ attempted st = length ts /\
        openRuns (log st) = 0 /\
        forall j, j < length ts -> handlerRan j (log st) /\ runnerEnded j (log st)
    | ChainAwaiting q k task =>
        heap st !! q = Some (stepQueue k task) /\ ts !! k = Some task /\
        S k + length (chain_then st) = length ts /\ attempted st = S k /\
        openRuns (log st) = 1 /\ In (RunnerStart (Step k) q 0) (log st) /\
        forall j, j < k -> handlerRan j (log st) /\ runnerEnded j (log st)
    | ChainRejected e =>
        openRuns (log st) = 0 /\ attempted st <= length ts /\
        exists k task, ts !! k = Some task /\
          snd (reactionOf (runner st) k task) = ChainRejected e
    end;
  ci_idle :
    forall q Q, heap st !! q = Some Q -> q_owner Q <> Direct ->
      (q_tasks Q = [] /\ q_workers Q = []) \/
      exists k task, chain st = ChainAwaiting q k task;
  ci_seq : sequenced (log st)
}.

(** The instance once the runner call of the step the chain awaits has
    settled and the handler of the step has been run, before the next
    continuation of the chain. *)
Definition settledState (st : State) (q : QId) (k : nat) (task : Task) : State :=
  mkState (runner st) (concurrency st)
    (signalRegistry q (taskOutcome (runner st) task) true (queues st))
    (snd (reactionOf (runner st) k task)) (chain_then st) (pending st)
    (<[q := stepSettled (runner st) k task]> (heap st)) (serial st)
    (fst (reactionOf (runner st) k task) ++ RunnerEnd (Step k) q 0 :: log st).

(** The instance once the next continuation has shifted step [k'] off
    [pending] and called [process] on it. *)
Definition nextStarted (mid : State) (k' : nat) (task' : Task)
    (rest : list (nat * Task)) : State :=
  mkState (runner mid) (concurrency mid) (queues mid ++ [length (heap mid)])
    (ChainAwaiting (length (heap mid)) k' task') rest rest
    (heap mid ++ [stepQueue k' task']) (serial mid)
    (RunnerStart (Step k') (length (heap mid)) 0 :: log mid).

(** What settling the runner call of step [k] makes of the state [st]
    of a run on [ins], when the call yields [v] and the handler [h] of
    the step throws [e] on [v]: [h] has been invoked a second time, with
    [e]; when that returned, the next step, if any, was started, and
    otherwise the chain is rejected. *)
Definition calledAgain (ins : list Input) (st : State) (q k : nat) (v : Value)
    (h : Handler) (e : Error) : Prop :=
  let st' := step st (Settle q 0) in
  let first := HandlerRan k None v (Fail e) in
  let again := HandlerRan k (Some e) VUndefined (h (Some e) VUndefined) in
  let settled := again :: first :: RunnerEnd (Step k) q 0 :: log st in
  match h (Some e) VUndefined with
  | Ok _ =>
      match pending st with
      | [] => chain st' = ChainFulfilled /\ log st' = settled
      | (k', task') :: rest =>
          k' = S k /\ enqueued ins !! k' = Some task' /\
          chain st' = ChainAwaiting (length (heap st)) k' task' /\
          pending st' = rest /\
          log st' = RunnerStart (Step k') (length (heap st)) 0 :: settled
      end
  | Fail e' =>
      chain st' = ChainRejected e' /\ pending st' = pending st /\
      log st' = settled
  end.

(** ** The calls of a queue, and the calls of a handler *)

(** The slots of queue [q] a runner call was made for, in the order of
    the calls. *)
Fixpoint starts (q : QId) (lg : list Event) : list nat :=
  match lg with
  | [] => []
  | RunnerStart _ q' i :: older =>
      if Nat.eqb q' q then starts q older ++ [i] else starts q older
  | _ :: older => starts q older
  end.

(** A queue between two runs of [q.process()] under [limit]: no more
    workers than the limit, and a task waits only when the limit is
    reached. *)
Definition staffed (limit : nat) (Q : Queue) : Prop :=
  length (q_workers Q) <= limit /\
  (q_tasks Q = [] \/ length (q_workers Q) = limit).

Definition allStaffed (st : State) : Prop :=
  Forall (staffed (Pos.to_nat (concurrency st))) (heap st).

(** The invocations of [task.handler] by the continuation of step [k]:
    none when the task has no handler; [(err)] when [process(next)] was
    rejected; [(null, data[0])] when it was resolved, followed by [(e)]
    when that invocation threw [e]. *)
Definition callsOf (r : Runner) (k : nat) (task : Task)
    : list (nat * option Error * Value) :=
  match handler task with
  | None => []
  | Some h =>
      match taskOutcome r task with
      | Fail e => [(k, Some e, VUndefined)]
      | Ok v =>
          match h None v with
          | Ok _ => [(k, None, v)]
          | Fail e => [(k, None, v); (k, Some e, VUndefined)]
          end
      end
  end.

(** What a task leaves in the accumulator: its result, or [undefined]
    when its runner call failed or its parser threw. *)
Definition leaves (r : Runner) (task : Task) (v : Value) : Prop :=
  match r (command task) (options task) with
  | Ok data =>
      match parsed task data with
      | Ok v' => v = v'
      | Fail _ => v = VUndefined
      end
  | Fail _ => v = VUndefined
  end.

(** The queue of a group of two whose second task has failed while the
    first is still running. *)
Definition demoRejected : Queue :=
  mkQueue [] [(0, demoTask "A")] [VUndefined] true (Rejected (MkError "boom")) Direct.

(** The queue of a group of two under a limit of one, once [process]
    has returned: the first task runs, the second waits. *)
Definition demoWaiting : Queue :=
  mkQueue [(1, demoTask "B")] [(0, demoTask "A")] [] true Pending Direct.

(** * Proofs *)

(** ** What each method does to the state *)

Ltac unfold_setters :=
  cbn [emit set_heap set_queues set_chain set_chain_then set_pending set_serial
       runner concurrency queues chain chain_then pending heap serial log] in *.

Lemma state_ext (a b : State) :
  runner a = runner b -> concurrency a = concurrency b ->
  queues a = queues b -> chain a = chain b -> chain_then a = chain_then b ->
  pending a = pending b -> heap a = heap b -> serial a = serial b ->
  log a = log b -> a = b.
Proof. destruct a, b. cbn. intros. by subst. Qed.

Ltac state_ext :=
  apply state_ext; unfold_setters; try reflexivity.

Lemma onQueueComplete_eq q st :
  onQueueComplete q st = set_queues (deregister q) st.
Proof.
  unfold onQueueComplete, deregister, set_queues.
  destruct (indexOf q (queues st)); [reflexivity | by destruct st].
Qed.

Lemma queueProcess_eq q Q st :
  heap st !! q = Some Q ->
  queueProcess q st =
  emit (startEvents q Q (Pos.to_nat (concurrency st)))
    (set_heap (<[q := startQ (Pos.to_nat (concurrency st)) Q]>) st).
Proof. unfold queueProcess. intros H. rewrite H. reflexivity. Qed.

Lemma queueDrain_eq q Q st :
  heap st !! q = Some Q ->
  queueDrain q st =
  set_heap (<[q := ok (drainValue Q) Q]>) (set_queues (deregister q) st).
Proof. unfold queueDrain. intros H. rewrite H. by rewrite onQueueComplete_eq. Qed.

Lemma queueError_eq q Q e st :
  heap st !! q = Some Q ->
  queueError q e st =
  set_heap (<[q := fail e Q]>) (set_queues (deregister q) st).
Proof. unfold queueError. intros H. rewrite H. by rewrite onQueueComplete_eq. Qed.

Lemma workerDone_eq q i Q task st :
  heap st !! q = Some Q ->
  findSlot i (q_workers Q) = Some task ->
  let limit := Pos.to_nat (concurrency st) in
  let out := taskOutcome (runner st) task in
  let Q1 := pushResult i out Q in
  workerDone q i st =
  mkState (runner st) (concurrency st)
    (signalRegistry q out (queueIdle Q1) (queues st))
    (chain st) (chain_then st) (pending st)
    (<[q := workerDoneQ limit i out Q]> (heap st)) (serial st)
    (startEvents q (signal out Q1) limit ++ RunnerEnd (q_owner Q) q i :: log st).
Proof.
  intros HQ Hs limit out Q1.
  assert (Hlt : q < length (heap st)) by (eapply lookup_lt_Some; eauto).
  assert (Hins : forall (A B : Queue) h, q < length h -> <[q:=A]> (<[q:=B]> h) !! q = Some A).
  { intros A B h Hh. apply list_lookup_insert_eq. by rewrite length_insert. }
  unfold workerDone. rewrite HQ, Hs.
  fold out. change (mkQueue _ _ _ _ _ _) with Q1.
  assert (H1 : heap (emit [RunnerEnd (q_owner Q) q i] (set_heap (<[q:=Q1]>) st)) !! q
               = Some Q1).
  { unfold_setters. by apply list_lookup_insert_eq. }
  unfold workerDoneQ, signal, signalRegistry. fold Q1.
  destruct out as [v|e] eqn:Hout; destruct (queueIdle Q1) eqn:Hidle.
  - rewrite (queueDrain_eq _ _ _ H1).
    rewrite (queueProcess_eq q (ok (drainValue Q1) Q1)) by (unfold_setters; by apply Hins).
    state_ext. by rewrite !list_insert_insert_eq.
  - rewrite (queueProcess_eq _ _ _ H1).
    state_ext. by rewrite !list_insert_insert_eq.
  - rewrite (queueError_eq _ _ _ _ H1).
    rewrite (queueDrain_eq q (fail e Q1)) by (unfold_setters; by apply Hins).
    rewrite (queueProcess_eq q (ok (drainValue (fail e Q1)) (fail e Q1))).
    2:{ unfold_setters. apply list_lookup_insert_eq. by rewrite !length_insert. }
    state_ext. by rewrite !list_insert_insert_eq.
  - rewrite (queueError_eq _ _ _ _ H1).
    rewrite (queueProcess_eq q (fail e Q1)) by (unfold_setters; by apply Hins).
    state_ext. by rewrite !list_insert_insert_eq.
Qed.

Lemma workerDone_noop q i st :
  match heap st !! q with
  | Some Q => findSlot i (q_workers Q) = None
  | None => True
  end ->
  workerDone q i st = st.
Proof.
  unfold workerDone. destruct (heap st !! q) as [Q|]; [|done].
  intros H. by rewrite H.
Qed.

Lemma process_eq g o st :
  let q := length (heap st) in
  let Q := mkQueue (slotsOf (tasksOf g)) [] [] (String.eqb (varType g) arrType) Pending o in
  let limit := Pos.to_nat (concurrency st) in
  process g o st =
  (q, match tasksOf g with
      | [] => mkState (runner st) (concurrency st) (deregister q (queues st ++ [q]))
                (chain st) (chain_then st) (pending st)
                (heap st ++ [ok (drainValue Q) Q]) (serial st) (log st)
      | _ :: _ => mkState (runner st) (concurrency st) (queues st ++ [q])
                (chain st) (chain_then st) (pending st)
                (heap st ++ [startQ limit Q]) (serial st)
                (startEvents q Q limit ++ log st)
      end).
Proof.
  intros q Q limit. unfold process. fold q. f_equal.
  change (mkQueue _ _ _ _ _ _) with Q.
  set (st1 := set_queues _ _).
  assert (H1 : heap st1 !! q = Some Q).
  { subst st1 q. unfold_setters. by rewrite list_lookup_middle. }
  assert (Hins : forall Q', <[q := Q']> (heap st ++ [Q]) = heap st ++ [Q']).
  { intros Q'. subst q. replace (length (heap st)) with (length (heap st) + 0) by lia.
    by rewrite insert_app_r. }
  destruct (tasksOf g).
  - rewrite (queueDrain_eq _ _ _ H1). subst st1. state_ext. by rewrite Hins.
  - rewrite (queueProcess_eq _ _ _ H1). subst st1. state_ext. by rewrite Hins.
Qed.

(** ** Lists of slots *)

Lemma map_fmap {A B} (f : A -> B) (l : list A) : map f l = f <$> l.
Proof. reflexivity. Qed.

Lemma slots_lookup (ts : list Task) i :
  slotsOf ts !! i = (fun t => (i, t)) <$> ts !! i.
Proof. unfold slotsOf. by rewrite list_lookup_imap. Qed.

Lemma slots_length (ts : list Task) : length (slotsOf ts) = length ts.
Proof. unfold slotsOf. by rewrite length_imap. Qed.

Lemma map_fst_drop_slots n (ts : list Task) :
  map fst (drop n (slotsOf ts)) = seq n (length ts - n).
Proof.
  apply list_eq. intros i.
  rewrite map_fmap, list_lookup_fmap, lookup_drop, slots_lookup.
  destruct (decide (n + i < length ts)) as [H|H].
  - rewrite lookup_seq_lt by lia.
    destruct (lookup_lt_is_Some_2 ts (n + i) H) as [t ->]. done.
  - rewrite lookup_seq_ge by lia. rewrite (lookup_ge_None_2 ts) by lia. done.
Qed.

Lemma slots_consistent (ts : list Task) :
  Forall (fun s : Slot => ts !! fst s = Some (snd s)) (slotsOf ts).
Proof.
  apply Forall_lookup. intros i [j t]. rewrite slots_lookup.
  destruct (ts !! i) eqn:E; simpl; [|done]. by intros [= <- <-].
Qed.

Lemma shiftTasks_take limit (waiting workers : list Slot) :
  shiftTasks limit waiting workers = take (limit - length workers) waiting.
Proof.
  revert workers. induction waiting as [|s rest IH]; intros workers; simpl.
  - by rewrite take_nil.
  - destruct (Nat.ltb_spec (length workers) limit).
    + rewrite IH, length_app. simpl.
      replace (limit - length workers) with (S (limit - (length workers + 1))) by lia.
      done.
    + replace (limit - length workers) with 0 by lia. done.
Qed.

Lemma findSlot_split i (l : list Slot) t :
  findSlot i l = Some t ->
  exists l1 l2, l = l1 ++ (i, t) :: l2 /\ removeSlot i l = l1 ++ l2.
Proof.
  induction l as [|[j u] l IH]; simpl; [done|].
  destruct (Nat.eqb_spec j i) as [->|Hne].
  - intros [= ->]. by exists [], l.
  - intros H. destruct (IH H) as (l1 & l2 & -> & ->).
    by exists ((j, u) :: l1), l2.
Qed.

Lemma firstFailure_app r ts d1 d2 :
  firstFailure r ts (d1 ++ d2) =
  match firstFailure r ts d1 with
  | Some e => Some e
  | None => firstFailure r ts d2
  end.
Proof.
  induction d1 as [|i d1 IH]; simpl; [done|].
  destruct (ts !! i) as [t|]; [|done].
  by destruct (taskOutcome r t).
Qed.

Lemma firstFailure_In r ts done e :
  firstFailure r ts done = Some e ->
  exists i t, In i done /\ ts !! i = Some t /\ taskOutcome r t = Fail e.
Proof.
  induction done as [|i done IH]; simpl; [done|].
  destruct (ts !! i) as [t|] eqn:Ei.
  - destruct (taskOutcome r t) as [v|e'] eqn:Et.
    + intros H. destruct (IH H) as (j & u & ? & ? & ?). exists j, u. auto.
    + intros [= ->]. exists i, t. auto.
  - intros H. destruct (IH H) as (j & u & ? & ? & ?). exists j, u. auto.
Qed.

Lemma firstFailure_None r ts done i t e :
  firstFailure r ts done = None ->
  In i done -> ts !! i = Some t -> taskOutcome r t = Fail e -> False.
Proof.
  induction done as [|j done IH]; simpl; [done|].
  intros H [->|Hin] Ht Hf.
  - by rewrite Ht, Hf in H.
  - destruct (ts !! j) as [u|]; [destruct (taskOutcome r u); [|done]|]; eauto.
Qed.

(** ** The promise of a queue settles once *)

Lemma ok_fields v Q :
  q_tasks (ok v Q) = q_tasks Q /\ q_workers (ok v Q) = q_workers Q /\
  results (ok v Q) = results Q /\ resolveFirst (ok v Q) = resolveFirst Q /\
  q_owner (ok v Q) = q_owner Q.
Proof. unfold ok. by destruct (future Q). Qed.

Lemma fail_fields e Q :
  q_tasks (fail e Q) = q_tasks Q /\ q_workers (fail e Q) = q_workers Q /\
  results (fail e Q) = results Q /\ resolveFirst (fail e Q) = resolveFirst Q /\
  q_owner (fail e Q) = q_owner Q.
Proof. unfold fail. by destruct (future Q). Qed.

Lemma signal_fields out Q :
  q_tasks (signal out Q) = q_tasks Q /\ q_workers (signal out Q) = q_workers Q /\
  results (signal out Q) = results Q /\ resolveFirst (signal out Q) = resolveFirst Q /\
  q_owner (signal out Q) = q_owner Q.
Proof.
  unfold signal.
  destruct out as [v|e]; destruct (queueIdle Q);
    repeat match goal with
           | |- context [ok ?v ?Q] =>
               destruct (ok_fields v Q) as (-> & -> & -> & -> & ->)
           | |- context [fail ?e ?Q] =>
               destruct (fail_fields e Q) as (-> & -> & -> & -> & ->)
           end; done.
Qed.

Lemma signal_future out Q :
  future (signal out Q) =
  match future Q with
  | Pending =>
      match out with
      | Fail e => Rejected e
      | Ok _ => if queueIdle Q then Resolved (drainValue Q) else Pending
      end
  | s => s
  end.
Proof.
  unfold signal, ok, fail, drainValue.
  destruct out as [v|e]; destruct (queueIdle Q); destruct (future Q) eqn:E;
    cbn; rewrite ?E; reflexivity.
Qed.

(** ** The invariant of a queue *)

Lemma drainValue_same Q Q' :
  results Q' = results Q -> resolveFirst Q' = resolveFirst Q ->
  drainValue Q' = drainValue Q.
Proof. unfold drainValue. intros H1 H2. by rewrite H1, H2. Qed.

Lemma startQ_inv r limit g Q done :
  QueueInv r limit g Q done -> QueueInv r limit g (startQ limit Q) done.
Proof.
  intros [Ht Hp Hb Hw Hr Hf Hfu Hl Hs].
  set (d := length done) in *. set (w := length (q_workers Q)) in *.
  set (M := length (tasksOf g)) in *.
  assert (Hst : shiftTasks limit (q_tasks Q) (q_workers Q)
                = take (limit - w) (drop (d + w) (slotsOf (tasksOf g)))).
  { by rewrite shiftTasks_take, Ht. }
  assert (Hlen : length (shiftTasks limit (q_tasks Q) (q_workers Q))
                 = min (limit - w) (M - (d + w))).
  { by rewrite Hst, length_take, length_drop, slots_length. }
  unfold startQ.
  remember (shiftTasks limit (q_tasks Q) (q_workers Q)) as started eqn:Hstarted.
  constructor; cbn [q_tasks q_workers results resolveFirst future q_owner].
  - rewrite Ht, drop_drop, length_app. f_equal. fold d w. lia.
  - rewrite map_app, length_app, app_assoc. fold d w.
    replace (d + (w + length started)) with ((d + w) + length started) by lia.
    rewrite seq_app. apply Permutation_app; [exact Hp|].
    rewrite Hlen, Hst, map_fmap, fmap_take, <- map_fmap, map_fst_drop_slots.
    rewrite take_seq. reflexivity.
  - rewrite length_app. fold d w M. lia.
  - apply Forall_app. split; [exact Hw|].
    rewrite Hst. apply Forall_take, Forall_drop, slots_consistent.
  - exact Hr.
  - exact Hf.
  - rewrite Hfu. reflexivity.
  - rewrite length_app. fold w. lia.
  - exact Hs.
Qed.

Lemma settle_inv r limit g Q done i task :
  QueueInv r limit g Q done ->
  findSlot i (q_workers Q) = Some task ->
  let out := taskOutcome r task in
  QueueInv r limit g (signal out (pushResult i out Q)) (done ++ [i]).
Proof.
  intros [Ht Hp Hb Hw Hr Hf Hfu Hl Hs] Hfind out.
  destruct (findSlot_split _ _ _ Hfind) as (l1 & l2 & Hwk & Hrm).
  assert (Hti : tasksOf g !! i = Some task).
  { rewrite Hwk in Hw. apply Forall_app in Hw as [_ Hw].
    by apply Forall_cons in Hw as [Hw _]. }
  set (Q1 := pushResult i out Q).
  destruct (signal_fields out Q1) as (E1 & E2 & E3 & E4 & E5).
  assert (Hw1 : q_workers Q1 = l1 ++ l2) by exact Hrm.
  assert (Hlw : length (q_workers Q) = S (length (l1 ++ l2))).
  { rewrite Hwk, !length_app. simpl. lia. }
  assert (Hidle : queueIdle Q1 = Nat.eqb (length (done ++ [i])) (length (tasksOf g))).
  { unfold queueIdle. rewrite Hw1. change (q_tasks Q1) with (q_tasks Q).
    rewrite Ht, length_drop, slots_length, Hlw, (length_app done [i]).
    cbn [length].
    match goal with
    | |- Nat.eqb ?a ?b = Nat.eqb ?c ?d =>
        destruct (Nat.eqb_spec a b); destruct (Nat.eqb_spec c d); try done; lia
    end. }
  constructor.
  - rewrite E1, E2, Hw1. change (q_tasks Q1) with (q_tasks Q).
    rewrite Ht, Hlw, (length_app done [i]). cbn [length]. f_equal. lia.
  - rewrite E2, Hw1, (length_app done [i]). cbn [length].
    replace (length done + 1 + length (l1 ++ l2))
      with (length done + length (q_workers Q)) by lia.
    rewrite <- Hp, Hwk, !map_app. simpl.
    rewrite <- !app_assoc. apply Permutation_app_head. simpl.
    apply Permutation_cons_app. reflexivity.
  - rewrite E2, Hw1, (length_app done [i]). cbn [length]. lia.
  - rewrite E2, Hw1. rewrite Hwk in Hw.
    apply Forall_app in Hw as [Ha Hb']. apply Forall_cons in Hb' as [_ Hb'].
    apply Forall_app. by split.
  - rewrite E3. subst Q1. cbn [results pushResult]. rewrite Hr, map_app. simpl.
    f_equal. unfold resultAt. rewrite Hti. reflexivity.
  - rewrite E4. exact Hf.
  - rewrite signal_future. change (future Q1) with (future Q). rewrite Hfu.
    rewrite firstFailure_app. rewrite (drainValue_same Q1 _ E3 E4).
    destruct (firstFailure r (tasksOf g) done) as [e|]; [reflexivity|].
    destruct (Nat.eqb_spec (length done) (length (tasksOf g))); [lia|].
    simpl. rewrite Hti. fold out. destruct out as [v|e]; [|reflexivity].
    by rewrite Hidle.
  - rewrite E2, Hw1. lia.
  - intros ->. specialize (Hs eq_refl).
    rewrite length_app. simpl. rewrite Nat.add_1_r, seq_S. simpl.
    rewrite <- Hs. f_equal. f_equal.
    assert (length (l1 ++ l2) = 0) by lia.
    destruct l1, l2; try discriminate.
    rewrite Hwk in Hp. simpl in Hp.
    rewrite Nat.add_1_r, seq_S in Hp. simpl in Hp.
    rewrite Hs in Hp at 1.
    by apply Permutation_app_inv_l, Permutation_length_1 in Hp.
Qed.

Lemma workerDoneQ_inv r limit g Q done i task :
  QueueInv r limit g Q done ->
  findSlot i (q_workers Q) = Some task ->
  QueueInv r limit g (workerDoneQ limit i (taskOutcome r task) Q) (done ++ [i]).
Proof. intros HI Hf. apply startQ_inv. by apply settle_inv. Qed.

Lemma created_inv r limit g o :
  let Q0 := mkQueue (slotsOf (tasksOf g)) [] [] (String.eqb (varType g) arrType)
              Pending o in
  QueueInv r limit g
    (match tasksOf g with
     | [] => ok (drainValue Q0) Q0
     | _ :: _ => startQ limit Q0
     end) [].
Proof.
  intros Q0. destruct (tasksOf g) as [|t ts] eqn:Hts.
  - subst Q0.
    constructor; rewrite ?Hts; cbn; rewrite ?Hts; try done. cbn. lia.
  - apply startQ_inv. subst Q0.
    constructor; rewrite ?Hts;
      cbn [q_tasks q_workers results resolveFirst future q_owner length];
      rewrite ?Hts; try done; cbn; lia.
Qed.

(** ** What the chain does to the state *)

Lemma emit_nil st : emit [] st = st.
Proof. by state_ext. Qed.

Lemma onRejected_eq k task err st :
  onRejected k task err st =
  set_chain (snd (rejectedReaction k task err))
    (emit (fst (rejectedReaction k task err)) st).
Proof.
  unfold onRejected, invoke, rejectedReaction.
  destruct (handler task) as [h|]; cbn [fst snd].
  - by destruct (h (Some err) VUndefined).
  - by rewrite emit_nil.
Qed.

Lemma onFulfilled_eq k task data st :
  onFulfilled k task data st =
  set_chain (snd (fulfilledReaction k task data))
    (emit (fst (fulfilledReaction k task data)) st).
Proof.
  unfold onFulfilled, fulfilledReaction.
  destruct (index0 data) as [v|e]; [|apply onRejected_eq].
  unfold invoke. destruct (handler task) as [h|] eqn:Hh.
  - destruct (h None v) as [u|e]; [reflexivity|].
    rewrite onRejected_eq. cbn [fst snd]. state_ext.
    by rewrite <- app_assoc.
  - apply onRejected_eq.
Qed.

Lemma shiftTasks_one limit (s : nat * Task) :
  0 < limit -> shiftTasks limit [s] [] = [s].
Proof.
  intros H. destruct limit; [lia|reflexivity].
Qed.

Lemma runContinuations_cons k task rest next rest' st :
  pending st = next :: rest' ->
  runContinuations ((k, task) :: rest) st =
  mkState (runner st) (concurrency st) (queues st ++ [length (heap st)])
    (ChainAwaiting (length (heap st)) k task) rest rest'
    (heap st ++ [stepQueue (fst next) (snd next)]) (serial st)
    (RunnerStart (Step (fst next)) (length (heap st)) 0 :: log st).
Proof.
  intros Hp. cbn [runContinuations]. rewrite Hp.
  rewrite process_eq. cbn [tasksOf].
  unfold startQ, startEvents. cbn [q_tasks q_workers slotsOf imap tasksOf].
  rewrite shiftTasks_one by apply Pos2Nat.is_pos.
  state_ext.
Qed.

(** ** Runs *)

Lemma run_app st a b : run st (a ++ b) = run (run st a) b.
Proof. apply fold_left_app. Qed.

Lemma run_snoc st a inp : run st (a ++ [inp]) = step (run st a) inp.
Proof. by rewrite run_app. Qed.

(** ** Frames *)

Lemma frame_refl q st : frame q st st.
Proof. unfold frame. auto. Qed.

Lemma frame_trans q a b c : frame q a b -> frame q b c -> frame q a c.
Proof.
  unfold frame. intros (H1 & H2 & H3 & H4 & H5) (G1 & G2 & G3 & G4 & G5).
  repeat split; try congruence; try lia.
  intros Hq. rewrite G4 by lia. auto.
Qed.

Lemma completions_starts q q' Q limit lg :
  completions q (startEvents q' Q limit ++ lg) = completions q lg.
Proof.
  unfold startEvents. rewrite <- map_rev.
  induction (rev _) as [|s l IH]; [done|]. exact IH.
Qed.

Lemma completions_rejected q k task err lg :
  completions q (fst (rejectedReaction k task err) ++ lg) = completions q lg.
Proof. unfold rejectedReaction. by destruct (handler task). Qed.

Lemma completions_fulfilled q k task data lg :
  completions q (fst (fulfilledReaction k task data) ++ lg) = completions q lg.
Proof.
  unfold fulfilledReaction.
  destruct (index0 data); [|apply completions_rejected].
  destruct (handler task) as [h|] eqn:Hh; [|apply completions_rejected].
  destruct (h None a); [done|]. cbn [fst].
  rewrite <- app_assoc. rewrite completions_rejected. done.
Qed.

Lemma frame_process q g o st : frame q st (snd (process g o st)).
Proof.
  rewrite process_eq. cbn [snd].
  destruct (tasksOf g); unfold frame; cbn [runner concurrency heap log];
    rewrite ?length_app, ?completions_starts; repeat split; try lia;
    intros Hq; by rewrite lookup_app_l.
Qed.

Lemma frame_chainReact q st : frame q st (chainReact st).
Proof.
  unfold chainReact.
  destruct (chain st); try apply frame_refl.
  destruct (heap st !! q0) as [Q|]; try apply frame_refl.
  destruct (future Q); try apply frame_refl.
  - rewrite onFulfilled_eq. unfold frame. unfold_setters.
    rewrite completions_fulfilled. auto.
  - rewrite onRejected_eq. unfold frame. unfold_setters.
    rewrite completions_rejected. auto.
Qed.

Lemma frame_runContinuations q cs st : frame q st (runContinuations cs st).
Proof.
  revert st. induction cs as [|[k task] rest IH]; intros st.
  - cbn. unfold frame. unfold_setters. auto.
  - destruct (pending st) as [|next rest'] eqn:Hp.
    + cbn [runContinuations]. rewrite Hp. apply IH.
    + rewrite (runContinuations_cons _ _ _ _ _ _ Hp).
      unfold frame. cbn [runner concurrency heap log completions].
      rewrite length_app. repeat split; try lia.
      intros Hq. by rewrite lookup_app_l.
Qed.

Lemma frame_chainAdvance q st : frame q st (chainAdvance st).
Proof.
  unfold chainAdvance. destruct (chain st); try apply frame_refl.
  apply frame_runContinuations.
Qed.

Lemma frame_processChain q t st : frame q st (processChain t st).
Proof.
  unfold processChain.
  eapply frame_trans; [|apply frame_chainAdvance].
  unfold frame. unfold_setters. auto.
Qed.

Lemma frame_workerDone q q' i st : q' <> q -> frame q st (workerDone q' i st).
Proof.
  intros Hne.
  destruct (heap st !! q') as [Q|] eqn:HQ.
  - destruct (findSlot i (q_workers Q)) as [task|] eqn:Hs.
    + rewrite (workerDone_eq _ _ _ _ _ HQ Hs).
      unfold frame. cbn [runner concurrency heap log].
      rewrite length_insert, completions_starts. cbn [completions].
      destruct (Nat.eqb_spec q' q); [done|].
      repeat split; try lia. intros _. by apply list_lookup_insert_ne.
    + rewrite workerDone_noop; [apply frame_refl|]. by rewrite HQ.
  - rewrite workerDone_noop; [apply frame_refl|]. by rewrite HQ.
Qed.

Lemma workerDone_length q i st :
  length (heap (workerDone q i st)) = length (heap st).
Proof.
  destruct (heap st !! q) as [Q|] eqn:HQ.
  - destruct (findSlot i (q_workers Q)) as [task|] eqn:Hs.
    + rewrite (workerDone_eq _ _ _ _ _ HQ Hs). cbn [heap]. apply length_insert.
    + rewrite workerDone_noop; [done|]. by rewrite HQ.
  - rewrite workerDone_noop; [done|]. by rewrite HQ.
Qed.

Lemma workerDone_config q i st :
  runner (workerDone q i st) = runner st /\
  concurrency (workerDone q i st) = concurrency st.
Proof.
  destruct (heap st !! q) as [Q|] eqn:HQ.
  - destruct (findSlot i (q_workers Q)) as [task|] eqn:Hs.
    + by rewrite (workerDone_eq _ _ _ _ _ HQ Hs).
    + rewrite workerDone_noop; [done|]. by rewrite HQ.
  - rewrite workerDone_noop; [done|]. by rewrite HQ.
Qed.

Lemma step_config st inp :
  runner (step st inp) = runner st /\ concurrency (step st inp) = concurrency st.
Proof.
  destruct inp as [g|t|q i]; cbn [step].
  - destruct (frame_process 0 g Direct st) as (? & ? & _). auto.
  - destruct (frame_processChain 0 t st) as (? & ? & _). auto.
  - destruct (frame_chainAdvance 0 (chainReact (workerDone q i st))) as (-> & -> & _).
    destruct (frame_chainReact 0 (workerDone q i st)) as (-> & -> & _).
    apply workerDone_config.
Qed.

Lemma run_config st ins :
  runner (run st ins) = runner st /\ concurrency (run st ins) = concurrency st.
Proof.
  revert st. induction ins as [|inp ins IH]; intros st; [done|].
  change (run st (inp :: ins)) with (run (step st inp) ins).
  destruct (IH (step st inp)) as [-> ->].
  apply step_config.
Qed.

Lemma step_heap_length st inp : length (heap st) <= length (heap (step st inp)).
Proof.
  destruct inp as [g|t|q i]; cbn [step].
  - destruct (frame_process 0 g Direct st) as (_ & _ & ? & _). auto.
  - destruct (frame_processChain 0 t st) as (_ & _ & ? & _). auto.
  - destruct (frame_chainAdvance 0 (chainReact (workerDone q i st))) as (_ & _ & H1 & _).
    destruct (frame_chainReact 0 (workerDone q i st)) as (_ & _ & H2 & _).
    rewrite workerDone_length in H2. lia.
Qed.

(** No completion is logged for a queue before it exists. *)
Lemma step_unborn st inp :
  (forall q, length (heap st) <= q -> completions q (log st) = []) ->
  forall q, length (heap (step st inp)) <= q -> completions q (log (step st inp)) = [].
Proof.
  intros H q Hq. pose proof (step_heap_length st inp) as Hlen.
  rewrite <- (H q) by lia.
  destruct inp as [g|t|q' i]; cbn [step].
  - apply frame_process.
  - apply frame_processChain.
  - destruct (frame_chainAdvance q (chainReact (workerDone q' i st))) as (_ & _ & _ & _ & ->).
    destruct (frame_chainReact q (workerDone q' i st)) as (_ & _ & _ & _ & ->).
    destruct (decide (q' = q)) as [->|Hne]; [|by apply frame_workerDone].
    rewrite workerDone_noop; [done|].
    rewrite (lookup_ge_None_2 (heap st)); [done|lia].
Qed.

Lemma run_unborn r n ins q :
  length (heap (run (init r n) ins)) <= q ->
  completions q (log (run (init r n) ins)) = [].
Proof.
  revert q. induction ins as [|inp ins IH] using rev_ind; intros q; [done|].
  rewrite run_snoc. by apply step_unborn.
Qed.

(** ** The queue of a submission *)

Lemma workerDoneQ_owner limit i out Q :
  q_owner (workerDoneQ limit i out Q) = q_owner Q.
Proof.
  unfold workerDoneQ, startQ. cbn [q_owner].
  by destruct (signal_fields out (pushResult i out Q)) as (_ & _ & _ & _ & ->).
Qed.

Lemma created_owner limit g o :
  let Q0 := mkQueue (slotsOf (tasksOf g)) [] [] (String.eqb (varType g) arrType)
              Pending o in
  q_owner (match tasksOf g with
           | [] => ok (drainValue Q0) Q0
           | _ :: _ => startQ limit Q0
           end) = o.
Proof. intros Q0. by destruct (tasksOf g). Qed.

(** After [process(g)], whatever else the instance is asked to do and in
    whatever order runner calls settle, the queue created for [g] is in
    the state its completions determine. *)
Lemma submitted_queue r n pre g post :
  let st0 := run (init r n) pre in
  let q := length (heap st0) in
  let st := run st0 (Submit g :: post) in
  exists Q, heap st !! q = Some Q /\ q_owner Q = Direct /\
    QueueInv r (Pos.to_nat n) g Q (completions q (log st)).
Proof.
  intros st0 q.
  assert (Hcfg0 : runner st0 = r /\ concurrency st0 = n).
  { subst st0. by destruct (run_config (init r n) pre) as [-> ->]. }
  induction post as [|inp post IH] using rev_ind; intros st.
  - subst st. cbn [run fold_left step]. rewrite process_eq. cbn [snd].
    destruct Hcfg0 as [Hr Hn].
    pose proof (created_inv r (Pos.to_nat n) g Direct) as HI.
    pose proof (created_owner (Pos.to_nat n) g Direct) as HO.
    cbn zeta in HI, HO. rewrite Hn.
    assert (Hun : completions q (log st0) = []).
    { subst st0 q. by apply run_unborn. }
    destruct (tasksOf g) eqn:Hts; cbn [heap log];
      rewrite ?completions_starts, Hun;
      (eexists; split; [by apply list_lookup_middle|]); split; assumption.
  - subst st. rewrite app_comm_cons, run_snoc.
    set (st := run st0 (Submit g :: post)) in *.
    destruct IH as (Q & HQ & HO & HI).
    assert (Hcfg : runner st = r /\ concurrency st = n).
    { subst st. destruct (run_config st0 (Submit g :: post)) as [-> ->]. done. }
    assert (Hlt : q < length (heap st)) by (eapply lookup_lt_Some; eauto).
    assert (Hframe : forall st', frame q st st' ->
              exists Q, heap st' !! q = Some Q /\ q_owner Q = Direct /\
                QueueInv r (Pos.to_nat n) g Q (completions q (log st'))).
    { intros st' (_ & _ & _ & Hh & Hc). exists Q. by rewrite Hh, Hc. }
    destruct inp as [g'|t|q' i]; cbn [step].
    + apply Hframe, frame_process.
    + apply Hframe, frame_processChain.
    + destruct (frame_chainAdvance q (chainReact (workerDone q' i st)))
        as (_ & _ & _ & Hh1 & ->).
      destruct (frame_chainReact q (workerDone q' i st)) as (_ & _ & _ & Hh2 & ->).
      rewrite Hh1, Hh2 by (rewrite ?workerDone_length; try lia;
        destruct (frame_chainReact q (workerDone q' i st)) as (_ & _ & ? & _);
        rewrite workerDone_length in *; lia).
      destruct (decide (q' = q)) as [->|Hne].
      2:{ apply Hframe. by apply frame_workerDone. }
      destruct (findSlot i (q_workers Q)) as [task|] eqn:Hs.
      2:{ rewrite workerDone_noop; [eauto|]. by rewrite HQ. }
      rewrite (workerDone_eq _ _ _ _ _ HQ Hs). cbn [heap log].
      rewrite completions_starts. cbn [completions]. rewrite Nat.eqb_refl.
      destruct Hcfg as [-> ->].
      eexists. split; [by apply list_lookup_insert_eq|]. split.
      * by rewrite workerDoneQ_owner.
      * by apply workerDoneQ_inv.
Qed.

Lemma QueueInv_done_lt r limit g Q done i :
  QueueInv r limit g Q done -> In i done -> i < length (tasksOf g).
Proof.
  intros [_ Hp Hb _ _ _ _ _ _] Hin.
  assert (In i (seq 0 (length done + length (q_workers Q)))) as Hs.
  { eapply Permutation_in; [exact Hp|]. apply in_or_app. by left. }
  apply in_seq in Hs. lia.
Qed.

Lemma QueueInv_idle r limit g Q done :
  QueueInv r limit g Q done -> queueIdle Q = true ->
  Permutation done (seq 0 (length (tasksOf g))).
Proof.
  intros [Ht Hp Hb _ _ _ _ _ _] Hidle.
  unfold queueIdle in Hidle. apply Nat.eqb_eq in Hidle.
  assert (Hw : length (q_workers Q) = 0) by lia.
  assert (Hq : length (q_tasks Q) = 0) by lia.
  rewrite Ht, length_drop, slots_length in Hq.
  destruct (q_workers Q); [|discriminate].
  cbn in Hp, Hb. rewrite app_nil_r in Hp.
  replace (length (tasksOf g)) with (length done + 0) by lia. exact Hp.
Qed.

Lemma QueueInv_complete r limit g Q done :
  QueueInv r limit g Q done -> length done = length (tasksOf g) ->
  Permutation done (seq 0 (length (tasksOf g))) /\ queueIdle Q = true.
Proof.
  intros HI Hlen. pose proof HI as [Ht Hp Hb _ _ _ _ _ _].
  assert (Hw : length (q_workers Q) = 0) by lia.
  assert (Hidle : queueIdle Q = true).
  { unfold queueIdle. rewrite Ht, length_drop, slots_length.
    apply Nat.eqb_eq. lia. }
  split; [|done]. eapply QueueInv_idle; eauto.
Qed.


(** ** The task queue executor *)

Lemma taskOutcome_ok r t data :
  r (command t) (options t) = Ok data -> taskOutcome r t = parsed t data.
Proof. unfold taskOutcome. intros H. by rewrite H. Qed.

Lemma taskOutcome_fail r t e :
  r (command t) (options t) = Fail e -> taskOutcome r t = Fail e.
Proof. unfold taskOutcome. intros H. by rewrite H. Qed.

(** A task fails when its runner call is rejected or when its parser
    throws on the output of the call. *)
Lemma taskOutcome_fails r t e :
  taskOutcome r t = Fail e <->
  r (command t) (options t) = Fail e \/
  exists data, r (command t) (options t) = Ok data /\ parsed t data = Fail e.
Proof.
  unfold taskOutcome. destruct (r (command t) (options t)) as [data|e'].
  - split; [intros H; right; eauto|].
    intros [H|(data' & [= <-] & H)]; [discriminate|done].
  - split; [intros [= ->]; by left|].
    intros [[= ->]|(data' & H & _)]; [done|discriminate].
Qed.

Lemma resultAt_ok r (ts : list Task) i t :
  (forall t, In t ts -> exists data, r (command t) (options t) = Ok data) ->
  ts !! i = Some t -> taskResult r t (resultAt r ts i).
Proof.
  intros Hok Ht. unfold resultAt. rewrite Ht.
  destruct (Hok t) as [data Hd].
  { apply list_elem_of_In. eapply list_elem_of_lookup_2; eauto. }
  exists data. split; [exact Hd|].
  rewrite (taskOutcome_ok _ _ _ Hd). by destruct (parsed t data).
Qed.

(** C1 (amended): when every runner call of a group succeeds, the
    accumulator of its queue holds the results of the tasks whose calls
    have settled, in the order in which the calls settled: the output of
    the call, parsed where the task has a parser, and [undefined] where
    the parser threw.  Once the queue is idle these are the results of
    all the tasks of the group; and with a concurrency of 1 they are in
    the order of submission. *)
Theorem results_in_completion_order r n pre g post :
  (forall t, In t (tasksOf g) -> exists data, r (command t) (options t) = Ok data) ->
  let st0 := run (init r n) pre in
  let q := length (heap st0) in
  let st := run st0 (Submit g :: post) in
  let done := completions q (log st) in
  exists Q, heap st !! q = Some Q /\
    Forall2 (fun v i => exists t, tasksOf g !! i = Some t /\ taskResult r t v)
      (results Q) done /\
    (queueIdle Q = true -> Permutation done (seq 0 (length (tasksOf g)))) /\
    (n = 1%positive -> queueIdle Q = true ->
     Forall2 (fun v t => taskResult r t v) (results Q) (tasksOf g)).
Proof.
  intros Hok st0 q st done.
  destruct (submitted_queue r n pre g post) as (Q & HQ & _ & HI).
  fold st0 q st done in HQ, HI.
  exists Q. split; [exact HQ|]. split; [|split].
  - rewrite (qi_results _ _ _ _ _ HI), map_fmap. apply Forall2_fmap_l.
    apply Forall_Forall2_diag, Forall_forall. intros i Hi.
    apply list_elem_of_In in Hi.
    pose proof (QueueInv_done_lt _ _ _ _ _ _ HI Hi) as Hlt.
    destruct (lookup_lt_is_Some_2 _ _ Hlt) as [t Ht].
    exists t. split; [exact Ht|]. by apply resultAt_ok.
  - by eapply QueueInv_idle.
  - intros -> Hidle.
    pose proof (QueueInv_idle _ _ _ _ _ HI Hidle) as Hp.
    pose proof (qi_serial _ _ _ _ _ HI eq_refl) as Hs.
    rewrite (Permutation_length Hp), length_seq in Hs.
    rewrite (qi_results _ _ _ _ _ HI), Hs.
    apply Forall2_same_length_lookup. split.
    + by rewrite length_map, length_seq.
    + intros i v t Hv Ht. rewrite map_fmap, list_lookup_fmap in Hv.
      rewrite lookup_seq_lt in Hv by (eapply lookup_lt_Some; eauto).
      cbn in Hv. injection Hv as <-. by apply resultAt_ok.
Qed.

(** C3: when some task of a group fails, its runner call being
    rejected or its parser throwing on the output, the future of the
    group is never resolved, so that no array of results is delivered:
    it is pending, with a call outstanding, until the first failing task
    settles, and rejected with the error of that task from then on.
    When one task only of the group fails, the future is rejected with
    the error of that task once its call has settled. *)
Theorem failing_group_rejects r n pre g post :
  (exists t e, In t (tasksOf g) /\ taskOutcome r t = Fail e) ->
  let st0 := run (init r n) pre in
  let q := length (heap st0) in
  let st := run st0 (Submit g :: post) in
  let done := completions q (log st) in
  exists Q, heap st !! q = Some Q /\
    (forall v, future Q <> Resolved v) /\
    match firstFailure r (tasksOf g) done with
    | Some e =>
        future Q = Rejected e /\
        exists i t, In i done /\ tasksOf g !! i = Some t /\
          (r (command t) (options t) = Fail e \/
           exists data, r (command t) (options t) = Ok data /\
             parsed t data = Fail e)
    | None => future Q = Pending /\ queueIdle Q = false
    end /\
    (forall i t e, In i done -> tasksOf g !! i = Some t ->
       taskOutcome r t = Fail e ->
       exists e', future Q = Rejected e') /\
    (forall i t e, In i done -> tasksOf g !! i = Some t ->
       taskOutcome r t = Fail e ->
       (forall j u e', tasksOf g !! j = Some u -> taskOutcome r u = Fail e' ->
          j = i) ->
       future Q = Rejected e).
Proof.
  intros (t & e & Hin & Hfail) st0 q st done.
  destruct (submitted_queue r n pre g post) as (Q & HQ & _ & HI).
  fold st0 q st done in HQ, HI.
  exists Q. split; [exact HQ|].
  pose proof (qi_future _ _ _ _ _ HI) as Hfu.
  apply list_elem_of_In, list_elem_of_lookup in Hin as [i Hi].
  assert (Hnone : firstFailure r (tasksOf g) done = None ->
                  future Q = Pending /\ queueIdle Q = false).
  { intros Hn. rewrite Hn in Hfu.
    assert (Hnp : ~ Permutation done (seq 0 (length (tasksOf g)))).
    { intros Hp. eapply (firstFailure_None r (tasksOf g) done i t e); eauto.
      eapply Permutation_in; [symmetry; exact Hp|].
      apply in_seq. split; [lia|]. cbn. eapply lookup_lt_Some; eauto. }
    split.
    - destruct (Nat.eqb_spec (length done) (length (tasksOf g))) as [Hl|]; [|done].
      destruct (QueueInv_complete _ _ _ _ _ HI Hl) as [Hp _]. done.
    - destruct (queueIdle Q) eqn:Hidle; [|done].
      destruct Hnp. by eapply QueueInv_idle. }
  destruct (firstFailure r (tasksOf g) done) as [e'|] eqn:Hff.
  - destruct (firstFailure_In _ _ _ _ Hff) as (j & u & Hj & Hu & Ho).
    split; [by rewrite Hfu|]. split; [split; [exact Hfu|]|split].
    + exists j, u. repeat split; try done. by apply taskOutcome_fails.
    + intros. by exists e'.
    + intros i' t' e'' _ Ht' Ho' Honly.
      pose proof (Honly _ _ _ Hu Ho) as ->.
      rewrite Hfu. congruence.
  - destruct (Hnone eq_refl) as [Hp Hidle].
    split; [by rewrite Hp|]. split; [done|].
    split; intros j u e' Hj Hu He'; exfalso;
      eapply (firstFailure_None r (tasksOf g) done j u e'); eauto.
Qed.

(** C7: [process] of an empty group resolves its future with
    [undefined] within the call, and logs nothing: no runner call is
    made. *)
Theorem empty_group_resolves_at_once st :
  let st' := step st (Submit (Group [])) in
  exists Q, heap st' !! length (heap st) = Some Q /\
    future Q = Resolved VUndefined /\ log st' = log st.
Proof.
  cbn [step]. rewrite process_eq. cbn [snd tasksOf heap log].
  eexists. split; [by apply list_lookup_middle|]. by split.
Qed.

(** C2: on the demo runner, [process] of the single task A resolves
    with the one-element array of its result, and [process] of the group
    of A and B resolves with the result of A alone. *)
Theorem process_resolves_inverted :
  (exists Q, heap (run (init demoRunner 1)
                     [Submit (Single (demoTask "A")); Settle 0 0]) !! 0 = Some Q /\
     future Q = Resolved (VArray [VString "ok-A"])) /\
  (exists Q, heap (run (init demoRunner 1)
                     [Submit (Group [demoTask "A"; demoTask "B"]);
                      Settle 0 0; Settle 0 1]) !! 0 = Some Q /\
     results Q = [VString "ok-A"; VString "ok-B"] /\
     future Q = Resolved (VString "ok-A")).
Proof. split; eexists; by vm_compute. Qed.

Lemma firstFailure_all_ok r (ts : list Task) done :
  (forall t, In t ts -> exists v, taskOutcome r t = Ok v) ->
  firstFailure r ts done = None.
Proof.
  intros Hok. induction done as [|i done IH]; [done|].
  cbn [firstFailure]. destruct (ts !! i) as [t|] eqn:Ht; [|exact IH].
  destruct (Hok t) as [v Hv].
  { apply list_elem_of_In. eapply list_elem_of_lookup_2; eauto. }
  by rewrite Hv.
Qed.

(** Whatever the runner and the run: once every task of a submission
    has succeeded, [process] of a single task has resolved
    with the accumulator, an array, and [process] of an array of tasks
    with the first element of the accumulator. *)
Lemma resolved_value r n pre g post :
  (forall t, In t (tasksOf g) -> exists v, taskOutcome r t = Ok v) ->
  let st0 := run (init r n) pre in
  let q := length (heap st0) in
  let st := run st0 (Submit g :: post) in
  exists Q, heap st !! q = Some Q /\
    (queueIdle Q = true ->
     future Q = Resolved (match g with
                          | Single _ => VArray (results Q)
                          | Group _ => hd VUndefined (results Q)
                          end)).
Proof.
  intros Hok st0 q st.
  destruct (submitted_queue r n pre g post) as (Q & HQ & _ & HI).
  fold st0 q st in HQ, HI.
  exists Q. split; [exact HQ|]. intros Hidle.
  pose proof (QueueInv_idle _ _ _ _ _ HI Hidle) as Hp.
  apply Permutation_length in Hp. rewrite length_seq in Hp.
  rewrite (qi_future _ _ _ _ _ HI), (firstFailure_all_ok _ _ _ Hok), Hp, Nat.eqb_refl.
  unfold drainValue. rewrite (qi_flag _ _ _ _ _ HI).
  destruct g as [t|ts]; [reflexivity|].
  change (String.eqb (varType (Group ts)) arrType) with true. cbn match.
  unfold firstResult. cbn. by destruct (results Q).
Qed.

(** C1, as stated, fails: with a concurrency of 2 and the call of B
    settling before the call of A, the accumulator holds the result of B
    before the result of A, and the future resolves with the result of
    B. *)
Lemma results_not_in_submission_order :
  let r := demoRunner in
  let g := Group [demoTask "A"; demoTask "B"] in
  let st := run (init r 2) [Submit g; Settle 0 1; Settle 0 0] in
  (forall t, In t (tasksOf g) -> exists data, r (command t) (options t) = Ok data) /\
  exists Q, heap st !! 0 = Some Q /\ queueIdle Q = true /\
    results Q = [VString "ok-B"; VString "ok-A"] /\
    future Q = Resolved (VString "ok-B") /\
    ~ Forall2 (fun v t => taskResult r t v) (results Q) (tasksOf g).
Proof.
  cbn zeta. split.
  - intros t [<-|[<-|[]]]; eexists; reflexivity.
  - eexists. split; [by vm_compute|]. cbn [results future].
    repeat split; try by vm_compute.
    intros H. apply Forall2_cons_1 in H as [(data & Hd & Hv) _].
    vm_compute in Hd. injection Hd as <-. vm_compute in Hv. discriminate.
Qed.

Lemma results_in_completion_order_witness :
  exists Q,
    heap (run (run (init demoRunner 1) [])
            [Submit (Group [demoTask "A"; demoTask "B"]); Settle 0 0; Settle 0 1])
      !! 0 = Some Q /\
    Forall2 (fun v t => taskResult demoRunner t v) (results Q)
      [demoTask "A"; demoTask "B"].
Proof.
  destruct (results_in_completion_order demoRunner 1 []
              (Group [demoTask "A"; demoTask "B"]) [Settle 0 0; Settle 0 1])
    as (Q & HQ & _ & _ & H).
  { intros t [<-|[<-|[]]]; eexists; reflexivity. }
  exists Q. split; [exact HQ|]. apply H; [reflexivity|].
  vm_compute in HQ. injection HQ as <-. reflexivity.
Defined.

Lemma failing_group_rejects_witness :
  exists Q,
    heap (run (run (init demoRunner 2) [])
            [Submit (Group [demoTask "A"; demoTask "bad"; demoTask "C"]);
             Settle 0 1; Settle 0 0; Settle 0 2]) !! 0 = Some Q /\
    future Q = Rejected (MkError "boom").
Proof.
  destruct (failing_group_rejects demoRunner 2 []
              (Group [demoTask "A"; demoTask "bad"; demoTask "C"])
              [Settle 0 1; Settle 0 0; Settle 0 2])
    as (Q & HQ & _ & H & _).
  { exists (demoTask "bad"), (MkError "boom"). split; [|reflexivity].
    right. by left. }
  exists Q. split; [exact HQ|].
  vm_compute in H. tauto.
Defined.

(** A parser that throws: the runner call of the second task of the
    group succeeds, its parser throws on the output, [undefined] is
    pushed for it and the future is rejected with what the parser
    threw. *)
Example throwing_parser_rejects :
  exists Q,
    heap (run (init demoRunner 2)
            [Submit (Group [demoTask "A"; demoUnparsable "P"]);
             Settle 0 1; Settle 0 0]) !! 0 = Some Q /\
    results Q = [VUndefined; VString "ok-A"] /\
    future Q = Rejected (MkError "parse").
Proof. eexists. by vm_compute. Qed.

(** ** The registry of active queues *)

Lemma deregister_cons q x l :
  deregister q (x :: l) = if Nat.eqb x q then l else x :: deregister q l.
Proof.
  unfold deregister. cbn [indexOf].
  destruct (Nat.eqb x q); [reflexivity|].
  by destruct (indexOf q l).
Qed.

Lemma deregister_absent q l : ~ In q l -> deregister q l = l.
Proof.
  induction l as [|x l IH]; [done|]. intros Hn.
  rewrite deregister_cons. destruct (Nat.eqb_spec x q) as [->|_].
  - destruct Hn. by left.
  - rewrite IH; [done|]. intros H. apply Hn. by right.
Qed.

Lemma deregister_snoc q l : ~ In q l -> deregister q (l ++ [q]) = l.
Proof.
  induction l as [|x l IH]; intros Hn.
  - cbn [app]. rewrite deregister_cons. by rewrite Nat.eqb_refl.
  - rewrite <- app_comm_cons, deregister_cons.
    destruct (Nat.eqb_spec x q) as [->|_].
    + destruct Hn. by left.
    + rewrite IH; [done|]. intros H. apply Hn. by right.
Qed.

Lemma deregister_filter (P : nat -> bool) q l :
  List.NoDup l ->
  deregister q (List.filter P l) =
  List.filter (fun x => P x && negb (Nat.eqb x q)) l.
Proof.
  induction 1 as [|x l Hx Hnd IH]; [done|].
  cbn [List.filter]. destruct (P x) eqn:HP; cbn [andb]; [|exact IH].
  rewrite deregister_cons. destruct (Nat.eqb_spec x q) as [->|Hne]; cbn [negb].
  - rewrite <- IH. symmetry. apply deregister_absent.
    intros Hin. apply Hx. apply filter_In in Hin. tauto.
  - by rewrite IH.
Qed.

Lemma pendingAt_app_l h Q x : x < length h -> pendingAt (h ++ [Q]) x = pendingAt h x.
Proof. intros H. unfold pendingAt. by rewrite lookup_app_l. Qed.

Lemma registryOf_app h Q :
  registryOf (h ++ [Q]) = registryOf h ++ (if isPending Q then [length h] else []).
Proof.
  unfold registryOf. rewrite length_app. cbn [length].
  rewrite Nat.add_1_r, seq_S, List.filter_app. cbn [List.filter Nat.add].
  f_equal.
  - apply filter_ext_in. intros x Hx. apply in_seq in Hx.
    apply pendingAt_app_l. lia.
  - unfold pendingAt. by rewrite list_lookup_middle.
Qed.

Lemma registryOf_bound h x : In x (registryOf h) -> x < length h.
Proof. unfold registryOf. intros H. apply filter_In in H as [H _]. apply in_seq in H. lia. Qed.

Lemma registryOf_NoDup h : List.NoDup (registryOf h).
Proof. unfold registryOf. apply List.NoDup_filter, seq_NoDup. Qed.

Lemma registryOf_In h x :
  In x (registryOf h) <-> exists Q, h !! x = Some Q /\ future Q = Pending.
Proof.
  unfold registryOf, pendingAt, isPending. rewrite filter_In, in_seq. split.
  - intros [_ H]. destruct (h !! x) as [Q|]; [|done].
    exists Q. split; [done|]. by destruct (future Q).
  - intros (Q & HQ & Hf). split.
    + split; [lia|]. cbn. eapply lookup_lt_Some; eauto.
    + by rewrite HQ, Hf.
Qed.

(** Settling queue [q], or finding it settled, takes it off the
    registry; anything else done to it leaves the registry alone. *)
Lemma registryOf_insert h q Q' :
  q < length h ->
  registryOf (<[q := Q']> h) =
  if isPending Q'
  then List.filter (fun x => pendingAt h x || Nat.eqb x q) (seq 0 (length h))
  else deregister q (registryOf h).
Proof.
  intros Hq. unfold registryOf at 1. rewrite length_insert.
  destruct (isPending Q') eqn:HP.
  - apply filter_ext_in. intros x _. unfold pendingAt.
    destruct (Nat.eqb_spec x q) as [->|Hne].
    + rewrite list_lookup_insert_eq by done. by rewrite HP, orb_true_r.
    + rewrite list_lookup_insert_ne by done. by rewrite orb_false_r.
  - unfold registryOf. rewrite deregister_filter by apply seq_NoDup.
    apply filter_ext_in. intros x _. unfold pendingAt.
    destruct (Nat.eqb_spec x q) as [->|Hne]; cbn [negb].
    + rewrite list_lookup_insert_eq by done. by rewrite HP, andb_false_r.
    + rewrite list_lookup_insert_ne by done. by rewrite andb_true_r.
Qed.

Lemma registryOf_insert_same h q Q Q' :
  h !! q = Some Q -> isPending Q' = isPending Q ->
  registryOf (<[q := Q']> h) = registryOf h.
Proof.
  intros HQ HP. unfold registryOf. rewrite length_insert.
  apply filter_ext_in. intros x _. unfold pendingAt.
  destruct (decide (x = q)) as [->|Hne].
  - rewrite list_lookup_insert_eq by (eapply lookup_lt_Some; eauto).
    by rewrite HQ.
  - by rewrite list_lookup_insert_ne.
Qed.

Lemma deregister_registryOf_settled h q Q :
  h !! q = Some Q -> isPending Q = false ->
  deregister q (registryOf h) = registryOf h.
Proof.
  intros HQ HP. apply deregister_absent. intros Hin.
  apply registryOf_In in Hin as (Q' & HQ' & Hf).
  rewrite HQ in HQ'. injection HQ' as <-.
  unfold isPending in HP. by rewrite Hf in HP.
Qed.

Lemma deregister_twice q l : List.NoDup l -> deregister q (deregister q l) = deregister q l.
Proof.
  intros Hnd. apply deregister_absent.
  induction Hnd as [|x l Hx Hnd IH]; [intros []|].
  rewrite deregister_cons. destruct (Nat.eqb_spec x q) as [->|Hne]; [exact Hx|].
  intros [?|?]; [done|]. by apply IH.
Qed.

Lemma workerDoneQ_future limit i out Q :
  future (workerDoneQ limit i out Q) =
  match future Q with
  | Pending =>
      match out with
      | Fail e => Rejected e
      | Ok _ => if queueIdle (pushResult i out Q)
                then Resolved (drainValue (pushResult i out Q)) else Pending
      end
  | s => s
  end.
Proof.
  unfold workerDoneQ, startQ. cbn [future]. by rewrite signal_future.
Qed.

Lemma workerDone_registry q i st :
  queues st = registryOf (heap st) ->
  queues (workerDone q i st) = registryOf (heap (workerDone q i st)).
Proof.
  intros HR.
  destruct (heap st !! q) as [Q|] eqn:HQ.
  2:{ rewrite workerDone_noop; [done|]. by rewrite HQ. }
  destruct (findSlot i (q_workers Q)) as [task|] eqn:Hs.
  2:{ rewrite workerDone_noop; [done|]. by rewrite HQ. }
  rewrite (workerDone_eq _ _ _ _ _ HQ Hs). cbn [queues heap].
  set (out := taskOutcome (runner st) task).
  set (limit := Pos.to_nat (concurrency st)).
  assert (Hlt : q < length (heap st)) by (eapply lookup_lt_Some; eauto).
  pose proof (workerDoneQ_future limit i out Q) as Hfu.
  unfold signalRegistry. rewrite HR.
  destruct (isPending Q) eqn:HP.
  - unfold isPending in HP. destruct (future Q) eqn:HfQ; try discriminate.
    destruct out as [v|e].
    + destruct (queueIdle (pushResult i (Ok v) Q)) eqn:Hidle.
      * rewrite registryOf_insert by done.
        unfold isPending. by rewrite Hfu.
      * symmetry. apply (registryOf_insert_same _ _ Q); [done|].
        unfold isPending. by rewrite Hfu, HfQ.
    + rewrite registryOf_insert by done.
      unfold isPending. rewrite Hfu.
      destruct (queueIdle _); [|done].
      apply deregister_twice, registryOf_NoDup.
  - assert (Hsame : isPending (workerDoneQ limit i out Q) = isPending Q).
    { unfold isPending in *. rewrite Hfu. by destruct (future Q). }
    rewrite (registryOf_insert_same _ _ Q) by done.
    rewrite !(deregister_registryOf_settled _ _ Q HQ HP).
    destruct out, (queueIdle _);
      rewrite ?(deregister_registryOf_settled _ _ Q HQ HP); done.
Qed.

Lemma process_registry g o st :
  queues st = registryOf (heap st) ->
  queues (snd (process g o st)) = registryOf (heap (snd (process g o st))).
Proof.
  intros HR. rewrite process_eq. cbn [snd].
  destruct (tasksOf g); cbn [queues heap]; rewrite registryOf_app, HR.
  - unfold ok, isPending. cbn [future set_future]. rewrite app_nil_r.
    apply deregister_snoc. intros Hin. apply registryOf_bound in Hin. lia.
  - reflexivity.
Qed.

Lemma runContinuations_registry cs st :
  queues st = registryOf (heap st) ->
  queues (runContinuations cs st) = registryOf (heap (runContinuations cs st)).
Proof.
  revert st. induction cs as [|[k task] rest IH]; intros st HR.
  { exact HR. }
  destruct (pending st) as [|next rest'] eqn:Hp.
  - cbn [runContinuations]. rewrite Hp. by apply IH.
  - rewrite (runContinuations_cons _ _ _ _ _ _ Hp). cbn [queues heap].
    by rewrite registryOf_app, HR.
Qed.

Lemma chainReact_registry st :
  queues (chainReact st) = queues st /\ heap (chainReact st) = heap st.
Proof.
  unfold chainReact. destruct (chain st); try done.
  destruct (heap st !! q) as [Q|]; try done.
  destruct (future Q); try done.
  - by rewrite onFulfilled_eq.
  - by rewrite onRejected_eq.
Qed.

Lemma chainAdvance_registry st :
  queues st = registryOf (heap st) ->
  queues (chainAdvance st) = registryOf (heap (chainAdvance st)).
Proof.
  unfold chainAdvance. destruct (chain st); try done.
  apply runContinuations_registry.
Qed.

Lemma step_registry st inp :
  queues st = registryOf (heap st) ->
  queues (step st inp) = registryOf (heap (step st inp)).
Proof.
  intros HR. destruct inp as [g|t|q i]; cbn [step].
  - by apply process_registry.
  - unfold processChain. by apply chainAdvance_registry.
  - apply chainAdvance_registry.
    destruct (chainReact_registry (workerDone q i st)) as [-> ->].
    by apply workerDone_registry.
Qed.

Lemma run_registry st ins :
  queues st = registryOf (heap st) ->
  queues (run st ins) = registryOf (heap (run st ins)).
Proof.
  revert st. induction ins as [|inp ins IH]; intros st HR.
  { exact HR. }
  change (run st (inp :: ins)) with (run (step st inp) ins).
  by apply IH, step_registry.
Qed.

Lemma registry_reachable r n ins :
  queues (run (init r n) ins) = registryOf (heap (run (init r n) ins)).
Proof. by apply run_registry. Qed.

(** C8: the queue of a submission is on the registry, once, exactly
    while its future is pending: [process] adds it, and it is gone once
    the future has settled.  When no other queue was created or settled
    in between, the registry is then what it was before the
    submission. *)
Theorem queue_registered_until_settled r n pre g post :
  let st0 := run (init r n) pre in
  let q := length (heap st0) in
  let st := run st0 (Submit g :: post) in
  exists Q, heap st !! q = Some Q /\
    List.NoDup (queues st) /\
    (In q (queues st) <-> future Q = Pending) /\
    queues (step st0 (Submit g)) =
      queues st0 ++ (match tasksOf g with [] => [] | _ :: _ => [q] end) /\
    (length (heap st) = S q ->
     (forall q', q' < q -> pendingAt (heap st) q' = pendingAt (heap st0) q') ->
     queues st = queues st0 ++ (if isPending Q then [q] else [])).
Proof.
  intros st0 q st.
  destruct (submitted_queue r n pre g post) as (Q & HQ & _ & _).
  fold st0 q st in HQ.
  assert (HR0 : queues st0 = registryOf (heap st0)) by apply registry_reachable.
  assert (HR : queues st = registryOf (heap st)).
  { subst st. by apply run_registry. }
  exists Q. split; [exact HQ|]. split; [|split; [|split]].
  - rewrite HR. apply registryOf_NoDup.
  - rewrite HR, registryOf_In. split.
    + intros (Q' & HQ' & Hf). rewrite HQ in HQ'. by injection HQ' as <-.
    + intros Hf. by exists Q.
  - cbn [step]. rewrite (process_registry g Direct st0 HR0).
    rewrite process_eq. cbn [snd]. fold q.
    destruct (tasksOf g); cbn [heap]; by rewrite registryOf_app, HR0.
  - intros Hlen Hsame. rewrite HR, HR0. unfold registryOf.
    rewrite Hlen, seq_S, List.filter_app. cbn [List.filter Nat.add].
    f_equal.
    + apply filter_ext_in. intros x Hx. apply in_seq in Hx. apply Hsame. lia.
    + unfold pendingAt. by rewrite HQ.
Qed.

Lemma queue_registered_until_settled_witness :
  queues (run (run (init demoRunner 2) [])
            [Submit (Group [demoTask "A"; demoTask "B"]); Settle 0 1; Settle 0 0])
  = queues (run (init demoRunner 2) []).
Proof.
  destruct (queue_registered_until_settled demoRunner 2 []
              (Group [demoTask "A"; demoTask "B"]) [Settle 0 1; Settle 0 0])
    as (Q & HQ & _ & _ & _ & H).
  rewrite H.
  - vm_compute in HQ. injection HQ as <-. reflexivity.
  - reflexivity.
  - intros q' Hq'. cbn in Hq'. lia.
Defined.

(** ** Reading the log of the chain *)

Lemma openRuns_offChain es lg :
  Forall offChain es -> openRuns (es ++ lg) = openRuns lg.
Proof.
  induction 1 as [|e es He _ IH]; [done|].
  destruct e as [[|k] q i|[|k] q i|]; cbn in He |- *; done.
Qed.

Lemma runnerCalls_offChain es lg :
  Forall offChain es -> runnerCalls (es ++ lg) = runnerCalls lg.
Proof.
  induction 1 as [|e es He _ IH]; [done|].
  destruct e as [[|k] q i|[|k] q i|]; cbn in He |- *; done.
Qed.

Lemma sequenced_offChain es lg :
  Forall offChain es -> sequenced lg -> sequenced (es ++ lg).
Proof.
  induction 1 as [|e es He _ IH]; [done|]. intros Hs.
  destruct e as [[|k] q i|[|k] q i|]; cbn in He |- *; try done;
    (split; [done|by apply IH]).
Qed.

Lemma handlerCalls_app es lg :
  handlerCalls (es ++ lg) = handlerCalls lg ++ handlerCalls es.
Proof.
  induction es as [|e es IH]; cbn [app handlerCalls].
  - by rewrite app_nil_r.
  - destruct e; try exact IH. by rewrite IH, app_assoc.
Qed.

Lemma handlerRan_app k es lg : handlerRan k lg -> handlerRan k (es ++ lg).
Proof.
  intros (err & data & r & H). exists err, data, r. apply in_or_app. by right.
Qed.

Lemma runnerEnded_app k es lg : runnerEnded k lg -> runnerEnded k (es ++ lg).
Proof. intros (q & i & H). exists q, i. apply in_or_app. by right. Qed.

Lemma handlerRan_cons k e lg : handlerRan k lg -> handlerRan k (e :: lg).
Proof. apply (handlerRan_app k [e]). Qed.

Lemma runnerEnded_cons k e lg : runnerEnded k lg -> runnerEnded k (e :: lg).
Proof. apply (runnerEnded_app k [e]). Qed.

Lemma sequenced_split later e earlier :
  sequenced (later ++ e :: earlier) -> sequenced (e :: earlier).
Proof. induction later as [|x later IH]; [done|]. intros [_ H]. by apply IH. Qed.

Lemma startEvents_direct q Q limit :
  q_owner Q = Direct ->
  Forall offChain (startEvents q Q limit) /\
  handlerCalls (startEvents q Q limit) = [].
Proof.
  intros HO. unfold startEvents. rewrite HO, <- map_rev.
  induction (rev _) as [|s l [IH1 IH2]]; [done|]. split.
  - by constructor.
  - exact IH2.
Qed.

Lemma rejectedReaction_offChain k task err :
  Forall offChain (fst (rejectedReaction k task err)).
Proof.
  unfold rejectedReaction. destruct (handler task); cbn [fst]; [|done].
  by repeat constructor.
Qed.

Lemma fulfilledReaction_offChain k task data :
  Forall offChain (fst (fulfilledReaction k task data)).
Proof.
  unfold fulfilledReaction.
  destruct (index0 data); [|apply rejectedReaction_offChain].
  destruct (handler task) as [h|]; [|apply rejectedReaction_offChain].
  destruct (h None a); cbn [fst].
  - by repeat constructor.
  - apply Forall_app. split; [apply rejectedReaction_offChain|].
    by repeat constructor.
Qed.

Lemma reactionOf_offChain r k task : Forall offChain (fst (reactionOf r k task)).
Proof.
  unfold reactionOf. destruct (taskOutcome r task).
  - apply fulfilledReaction_offChain.
  - apply rejectedReaction_offChain.
Qed.

Lemma rejectedReaction_ran k task err lg :
  snd (rejectedReaction k task err) = ChainFulfilled ->
  handlerRan k (fst (rejectedReaction k task err) ++ lg).
Proof.
  unfold rejectedReaction. destruct (handler task) as [h|]; cbn [fst snd]; [|done].
  intros _. eexists _, _, _. by left.
Qed.

Lemma fulfilledReaction_ran k task data lg :
  snd (fulfilledReaction k task data) = ChainFulfilled ->
  handlerRan k (fst (fulfilledReaction k task data) ++ lg).
Proof.
  unfold fulfilledReaction.
  destruct (index0 data); [|apply rejectedReaction_ran].
  destruct (handler task) as [h|]; [|apply rejectedReaction_ran].
  destruct (h None a); cbn [fst snd].
  - intros _. eexists _, _, _. by left.
  - intros _. eexists _, _, _. apply in_or_app. left. apply in_or_app. right.
    by left.
Qed.

Lemma reactionOf_ran r k task lg :
  snd (reactionOf r k task) = ChainFulfilled ->
  handlerRan k (fst (reactionOf r k task) ++ lg).
Proof.
  unfold reactionOf. destruct (taskOutcome r task).
  - apply fulfilledReaction_ran.
  - apply rejectedReaction_ran.
Qed.

(** ** The chain at rest *)

Lemma rest_noop ts st : ChainInv ts st -> chainAdvance (chainReact st) = st.
Proof.
  intros HI. pose proof (ci_status _ _ HI) as Hst.
  unfold chainReact, chainAdvance.
  destruct (chain st) as [|q k task|e] eqn:Hc.
  - rewrite Hc. destruct Hst as (Hnil & _). rewrite Hnil. cbn.
    state_ext. by rewrite Hnil.
  - destruct Hst as (HQ & _). rewrite HQ. cbn [future stepQueue]. by rewrite Hc.
  - by rewrite Hc.
Qed.

(** ** Steps that leave the chain alone *)

Lemma ChainInv_offChain ts st st' es :
  runner st' = runner st -> chain st' = chain st ->
  chain_then st' = chain_then st -> pending st' = pending st ->
  serial st' = serial st ->
  log st' = es ++ log st -> Forall offChain es -> handlerCalls es = [] ->
  (forall q Q, heap st' !! q = Some Q -> heap st !! q = Some Q \/ q_owner Q = Direct) ->
  (forall q Q, heap st !! q = Some Q -> q_owner Q <> Direct -> heap st' !! q = Some Q) ->
  ChainInv ts st -> ChainInv ts st'.
Proof.
  intros Hr Hc Ht Hp Hs Hl Hoff Hno Hnew Hold [I1 I2 I3 I4 I5 I6 I7 I8].
  assert (Ha : attempted st' = attempted st).
  { unfold attempted. by rewrite Hl, runnerCalls_offChain. }
  assert (Hss : settledSteps st' = settledSteps st).
  { unfold settledSteps. by rewrite Hc, Ha. }
  constructor.
  - by rewrite Hs.
  - by rewrite Hp, Ht.
  - by rewrite Ht.
  - by rewrite Ha, Hl, runnerCalls_offChain.
  - by rewrite Hl, handlerCalls_app, Hno, app_nil_r, Hr, Hss.
  - rewrite Hc, Ht, Ha, Hl, Hr, openRuns_offChain by done.
    destruct (chain st) as [|q k task|e].
    + destruct I6 as (? & ? & ? & H). repeat split; try done.
      * by apply handlerRan_app, H.
      * by apply runnerEnded_app, H.
    + destruct I6 as (HQ & ? & ? & ? & ? & Hin & H). repeat split; try done.
      * by apply Hold.
      * apply in_or_app. by right.
      * by apply handlerRan_app, H.
      * by apply runnerEnded_app, H.
    + done.
  - intros q Q HQ HO. rewrite Hc.
    destruct (Hnew q Q HQ) as [Hq|Hq]; [|done]. by apply I7.
  - rewrite Hl. by apply sequenced_offChain.
Qed.

Lemma ChainInv_submit ts g st :
  ChainInv ts st -> ChainInv ts (step st (Submit g)).
Proof.
  intros HI. cbn [step].
  pose proof (process_eq g Direct st) as Heq. cbn zeta in Heq.
  rewrite Heq. cbn [snd]. clear Heq.
  set (Q0 := mkQueue _ _ _ _ _ _).
  destruct (tasksOf g) as [|t0 ts0].
  - eapply (ChainInv_offChain ts st _ []); try done.
    + intros q Q. cbn [heap]. intros HQ.
      apply lookup_app_Some in HQ as [HQ|[_ HQ]]; [by left|right].
      apply list_lookup_singleton_Some in HQ as [_ <-].
      by destruct (ok_fields (drainValue Q0) Q0) as (_ & _ & _ & _ & ->).
    + intros q Q HQ _. cbn [heap]. by apply lookup_app_l_Some.
  - destruct (startEvents_direct (length (heap st)) Q0
                (Pos.to_nat (concurrency st)) eq_refl) as [Hoff Hno].
    eapply (ChainInv_offChain ts st _ _); try done.
    + intros q Q. cbn [heap]. intros HQ.
      apply lookup_app_Some in HQ as [HQ|[_ HQ]]; [by left|right].
      by apply list_lookup_singleton_Some in HQ as [_ <-].
    + intros q Q HQ _. cbn [heap]. by apply lookup_app_l_Some.
Qed.

Lemma ChainInv_workerDone_direct ts st q i Q :
  heap st !! q = Some Q -> q_owner Q = Direct ->
  ChainInv ts st -> ChainInv ts (workerDone q i st).
Proof.
  intros HQ HO HI.
  destruct (findSlot i (q_workers Q)) as [task|] eqn:Hs.
  2:{ rewrite workerDone_noop; [done|]. by rewrite HQ. }
  rewrite (workerDone_eq _ _ _ _ _ HQ Hs).
  set (out := taskOutcome (runner st) task).
  set (limit := Pos.to_nat (concurrency st)).
  assert (HO1 : q_owner (signal out (pushResult i out Q)) = Direct).
  { by destruct (signal_fields out (pushResult i out Q)) as (_ & _ & _ & _ & ->). }
  destruct (startEvents_direct q _ limit HO1) as [Hoff Hno].
  eapply (ChainInv_offChain ts st _
            (startEvents q (signal out (pushResult i out Q)) limit
               ++ [RunnerEnd (q_owner Q) q i])); try done.
  - cbn [log]. by rewrite <- app_assoc.
  - apply Forall_app. split; [done|]. rewrite HO. by repeat constructor.
  - by rewrite handlerCalls_app, Hno.
  - intros q' Q'. cbn [heap]. intros HQ'.
    destruct (decide (q' = q)) as [->|Hne].
    + right. rewrite list_lookup_insert_eq in HQ' by (eapply lookup_lt_Some; eauto).
      injection HQ' as <-. by rewrite workerDoneQ_owner.
    + left. by rewrite list_lookup_insert_ne in HQ'.
  - intros q' Q' HQ' HO'. cbn [heap].
    destruct (decide (q' = q)) as [->|Hne].
    + rewrite HQ in HQ'. injection HQ' as <-. done.
    + by rewrite list_lookup_insert_ne.
Qed.

(** ** [processChain] *)

Lemma slotsOf_snoc (ts : list Task) t :
  slotsOf (ts ++ [t]) = slotsOf ts ++ [(length ts, t)].
Proof.
  unfold slotsOf. rewrite imap_app. cbn [imap]. by rewrite Nat.add_0_r.
Qed.

Lemma then_length (ts : list Task) (ct : list (nat * Task)) :
  ct = drop (length ts - length ct) (slotsOf ts) -> length ct <= length ts.
Proof.
  intros H. apply (f_equal length) in H.
  rewrite length_drop, slots_length in H. lia.
Qed.

Lemma then_snoc (ts : list Task) (ct : list (nat * Task)) t :
  ct = drop (length ts - length ct) (slotsOf ts) ->
  ct ++ [(length ts, t)] =
  drop (length (ts ++ [t]) - length (ct ++ [(length ts, t)])) (slotsOf (ts ++ [t])).
Proof.
  intros H. pose proof (then_length _ _ H) as Hl.
  rewrite !length_app, slotsOf_snoc. cbn [length].
  replace (length ts + 1 - (length ct + 1)) with (length ts - length ct) by lia.
  rewrite drop_app_le by (rewrite slots_length; lia). by rewrite <- H.
Qed.

Lemma then_head (ts : list Task) k task (rest : list (nat * Task)) :
  (k, task) :: rest = drop (length ts - S (length rest)) (slotsOf ts) ->
  S k + length rest = length ts /\ ts !! k = Some task /\
  rest = drop (length ts - length rest) (slotsOf ts).
Proof.
  intros H. pose proof (then_length ts ((k, task) :: rest) H) as Hl.
  cbn [length] in Hl.
  assert (H0 : slotsOf ts !! (length ts - S (length rest)) = Some (k, task)).
  { pose proof (lookup_drop (slotsOf ts) (length ts - S (length rest)) 0) as Hd.
    rewrite <- H, Nat.add_0_r in Hd. by rewrite <- Hd. }
  rewrite (drop_S _ _ _ H0) in H. injection H as Hrest.
  rewrite slots_lookup in H0.
  destruct (ts !! (length ts - S (length rest))) as [t'|] eqn:Ht; [|done].
  cbn in H0. injection H0 as Hk <-. subst k.
  split; [lia|]. split; [done|].
  replace (length ts - length rest) with (S (length ts - S (length rest))) by lia.
  exact Hrest.
Qed.

Lemma processChain_waiting t st :
  chain st <> ChainFulfilled ->
  processChain t st =
  mkState (runner st) (concurrency st) (queues st) (chain st)
    (chain_then st ++ [(serial st, t)]) (pending st ++ [(serial st, t)])
    (heap st) (S (serial st)) (log st).
Proof.
  intros Hc. unfold processChain, chainAdvance. unfold_setters.
  destruct (chain st) eqn:E; [done| |]; state_ext; by rewrite E.
Qed.

Lemma processChain_starts t st :
  chain st = ChainFulfilled -> chain_then st = [] -> pending st = [] ->
  processChain t st =
  mkState (runner st) (concurrency st) (queues st ++ [length (heap st)])
    (ChainAwaiting (length (heap st)) (serial st) t) [] []
    (heap st ++ [stepQueue (serial st) t]) (S (serial st))
    (RunnerStart (Step (serial st)) (length (heap st)) 0 :: log st).
Proof.
  intros Hc Ht Hp. unfold processChain, chainAdvance. unfold_setters.
  rewrite Hc, Ht, Hp. cbn [app].
  by rewrite (runContinuations_cons _ _ _ (serial st, t) []).
Qed.

Lemma ChainInv_enqueue ts t st :
  ChainInv ts st -> ChainInv (ts ++ [t]) (step st (Enqueue t)).
Proof.
  intros [I1 I2 I3 I4 I5 I6 I7 I8]. cbn [step].
  pose proof (then_length _ _ I3) as Hlen.
  destruct (chain st) as [|q k task|e] eqn:Hc.
  - destruct I6 as (Hnil & Hatt & Hopen & Hran).
    rewrite processChain_starts by (rewrite ?I2; done).
    unfold attempted in Hatt.
    constructor; unfold settledSteps; unfold attempted;
      cbn [serial pending chain_then log heap chain runner runnerCalls
           handlerCalls openRuns sequenced].
    + rewrite length_app. cbn. lia.
    + done.
    + rewrite drop_ge; [done|]. rewrite slots_length. cbn. lia.
    + rewrite I4. unfold attempted. rewrite length_app, length_seq. cbn [length].
      by rewrite I1, <- Hatt, Nat.add_1_r, seq_S.
    + rewrite length_app, Hatt. cbn [length]. rewrite Nat.add_1_r. cbn [pred].
      rewrite take_app_length. rewrite I5. unfold settledSteps, attempted.
      rewrite Hc, Hatt. by rewrite firstn_all.
    + rewrite I1. repeat split.
      * by apply list_lookup_middle.
      * by apply list_lookup_middle.
      * rewrite length_app. cbn. lia.
      * rewrite length_app, Hatt. cbn. lia.
      * by rewrite Hopen.
      * by left.
      * by apply handlerRan_cons, Hran.
      * by apply runnerEnded_cons, Hran.
    + intros q Q HQ HO.
      apply lookup_app_Some in HQ as [HQ|[Hge HQ]].
      * left. destruct (I7 q Q HQ HO) as [?|(k & task & Hk)]; [done|].
        discriminate.
      * apply list_lookup_singleton_Some in HQ as [H0 <-].
        right. exists (serial st), t. repeat f_equal. lia.
    + rewrite I1. split; [|done]. split; [done|]. exact Hran.
  - destruct I6 as (HQ & Hk & Hsum & Hatt & Hopen & Hin & Hran).
    rewrite processChain_waiting by (by rewrite Hc).
    constructor; unfold settledSteps; unfold attempted;
      cbn [serial pending chain_then log heap chain runner].
    + rewrite length_app. cbn. lia.
    + by rewrite I2.
    + rewrite I1. by apply then_snoc.
    + exact I4.
    + rewrite I5. unfold settledSteps, attempted. rewrite Hc.
      rewrite take_app_le; [done|]. unfold attempted in Hatt. lia.
    + rewrite Hc. repeat split; try done; try (by apply Hran).
      * by apply lookup_app_l_Some.
      * rewrite !length_app. cbn. lia.
    + intros q' Q' HQ' HO. rewrite Hc. by apply I7.
    + exact I8.
  - destruct I6 as (Hopen & Hatt & k & task & Hk & Hrej).
    rewrite processChain_waiting by (by rewrite Hc).
    constructor; unfold settledSteps; unfold attempted;
      cbn [serial pending chain_then log heap chain runner].
    + rewrite length_app. cbn. lia.
    + by rewrite I2.
    + rewrite I1. by apply then_snoc.
    + exact I4.
    + rewrite I5. unfold settledSteps, attempted. rewrite Hc.
      rewrite take_app_le; [done|]. unfold attempted in Hatt. lia.
    + rewrite Hc. repeat split; try done.
      * unfold attempted in Hatt. rewrite length_app. lia.
      * exists k, task. split; [|done]. by apply lookup_app_l_Some.
    + intros q' Q' HQ' HO. rewrite Hc. by apply I7.
    + exact I8.
Qed.

(** ** The runner call the chain awaits settles *)

Lemma workerDone_awaited q k task st :
  heap st !! q = Some (stepQueue k task) ->
  workerDone q 0 st =
  mkState (runner st) (concurrency st)
    (signalRegistry q (taskOutcome (runner st) task) true (queues st))
    (chain st) (chain_then st) (pending st)
    (<[q := stepSettled (runner st) k task]> (heap st)) (serial st)
    (RunnerEnd (Step k) q 0 :: log st).
Proof.
  intros HQ.
  rewrite (workerDone_eq q 0 (stepQueue k task) task st HQ) by reflexivity.
  unfold stepSettled.
  destruct (taskOutcome (runner st) task) as [v|e]; reflexivity.
Qed.

Lemma chainReact_awaited q k task W r :
  chain W = ChainAwaiting q k task ->
  heap W !! q = Some (stepSettled r k task) ->
  chainReact W =
  set_chain (snd (reactionOf r k task)) (emit (fst (reactionOf r k task)) W).
Proof.
  intros Hc HQ. unfold chainReact. rewrite Hc, HQ.
  unfold stepSettled, reactionOf.
  destruct (taskOutcome r task) as [v|e]; cbn [future].
  - apply onFulfilled_eq.
  - apply onRejected_eq.
Qed.

Lemma settle_awaited_eq q k task st :
  chain st = ChainAwaiting q k task ->
  heap st !! q = Some (stepQueue k task) ->
  step st (Settle q 0) = chainAdvance (settledState st q k task).
Proof.
  intros Hc HQ. cbn [step]. f_equal.
  rewrite (workerDone_awaited _ _ _ _ HQ).
  erewrite chainReact_awaited; [reflexivity|exact Hc|].
  cbn [heap]. apply list_lookup_insert_eq. eapply lookup_lt_Some; eauto.
Qed.

Lemma chainAdvance_settled q k task st :
  pending st = chain_then st ->
  chainAdvance (settledState st q k task) =
  match snd (reactionOf (runner st) k task), chain_then st with
  | ChainFulfilled, (k', task') :: rest =>
      nextStarted (settledState st q k task) k' task' rest
  | _, _ => settledState st q k task
  end.
Proof.
  intros Hp. unfold chainAdvance. cbn [chain settledState chain_then].
  destruct (snd (reactionOf (runner st) k task)) eqn:HR; try reflexivity.
  destruct (chain_then st) as [|[k' task'] rest] eqn:Ht.
  - cbn [runContinuations]. state_ext. symmetry. exact Ht.
  - rewrite (runContinuations_cons k' task' rest (k', task') rest).
    + unfold nextStarted. state_ext.
    + cbn [pending settledState]. exact Hp.
Qed.

Lemma concat_imap_take_S {A B} (f : nat -> A -> list B) (l : list A) k x :
  l !! k = Some x ->
  concat (imap f (take (S k) l)) = concat (imap f (take k l)) ++ f k x.
Proof.
  intros Hk. rewrite (take_S_r _ _ _ Hk), imap_app, concat_app.
  cbn [imap concat]. rewrite app_nil_r, length_take, Nat.add_0_r.
  f_equal. f_equal. apply Nat.min_l.
  apply Nat.lt_le_incl. eapply lookup_lt_Some; eauto.
Qed.

Lemma stepSettled_idle r k task :
  q_tasks (stepSettled r k task) = [] /\ q_workers (stepSettled r k task) = [].
Proof. unfold stepSettled. by destruct (taskOutcome r task). Qed.

Lemma ChainInv_settle_awaited ts st q k task :
  ChainInv ts st -> chain st = ChainAwaiting q k task ->
  ChainInv ts (step st (Settle q 0)).
Proof.
  intros [I1 I2 I3 I4 I5 I6 I7 I8] Hc.
  rewrite Hc in I6. destruct I6 as (HQ & Hk & Hsum & Hatt & Hopen & Hin & Hran).
  rewrite (settle_awaited_eq _ _ _ _ Hc HQ), (chainAdvance_settled _ _ _ _ I2).
  set (mid := settledState st q k task).
  set (R := reactionOf (runner st) k task).
  pose proof (reactionOf_offChain (runner st) k task) as Hoff. fold R in Hoff.
  assert (Hlog : log mid = fst R ++ RunnerEnd (Step k) q 0 :: log st) by reflexivity.
  assert (HrunL : runnerCalls (log mid) = runnerCalls (log st)).
  { rewrite Hlog. by rewrite runnerCalls_offChain. }
  assert (HattL : attempted mid = S k).
  { unfold attempted. by rewrite HrunL. }
  assert (HhL : handlerCalls (log mid) =
                concat (imap (fun k t => handlerCalls (fst (reactionOf (runner st) k t)))
                          (take (S k) ts))).
  { rewrite Hlog, handlerCalls_app. cbn [handlerCalls]. rewrite I5.
    unfold settledSteps. rewrite Hc, Hatt. cbn [pred].
    by rewrite (concat_imap_take_S _ _ _ _ Hk). }
  assert (HoL : openRuns (log mid) = 0).
  { rewrite Hlog, openRuns_offChain by done. cbn [openRuns]. by rewrite Hopen. }
  assert (HsL : sequenced (log mid)).
  { rewrite Hlog. apply sequenced_offChain; [done|]. by split. }
  assert (Hprev : forall j, j < k -> handlerRan j (log mid) /\ runnerEnded j (log mid)).
  { intros j Hj. rewrite Hlog. split.
    - by apply handlerRan_app, handlerRan_cons, Hran.
    - by apply runnerEnded_app, runnerEnded_cons, Hran. }
  assert (HendK : runnerEnded k (log mid)).
  { rewrite Hlog. exists q, 0. apply in_or_app. right. by left. }
  assert (HranK : snd R = ChainFulfilled -> handlerRan k (log mid)).
  { rewrite Hlog. apply reactionOf_ran. }
  assert (Hall : snd R = ChainFulfilled ->
            forall j, j < S k -> handlerRan j (log mid) /\ runnerEnded j (log mid)).
  { intros HR j Hj. destruct (decide (j = k)) as [->|Hne]; [by split; auto|].
    apply Hprev. lia. }
  assert (Hidle : forall q' Q', heap mid !! q' = Some Q' -> q_owner Q' <> Direct ->
            q_tasks Q' = [] /\ q_workers Q' = []).
  { intros q' Q' HQ' HO. cbn [heap mid settledState] in HQ'.
    destruct (decide (q' = q)) as [->|Hne].
    - rewrite list_lookup_insert_eq in HQ' by (eapply lookup_lt_Some; eauto).
      injection HQ' as <-. apply stepSettled_idle.
    - rewrite list_lookup_insert_ne in HQ' by done.
      destruct (I7 q' Q' HQ' HO) as [?|(k0 & t0 & H0)]; [done|].
      rewrite Hc in H0. injection H0 as -> _ _. done. }
  destruct (snd R) as [| |e] eqn:HR.
  - destruct (chain_then st) as [|[k' task'] rest] eqn:Ht.
    + (* the chain is fulfilled and idle *)
      cbn [length] in Hsum.
      constructor; unfold settledSteps; rewrite ?HattL;
        cbn [serial pending chain_then chain runner mid settledState]; fold R;
        rewrite ?HR, ?Ht; try done.
      * by rewrite HrunL, I4, Hatt.
      * repeat split; try done; try lia; apply Hall; try done; lia.
      * intros q' Q' HQ' HO. left. by apply (Hidle q').
    + (* the next continuation starts the next step *)
      cbn [length] in Hsum, I3.
      destruct (then_head ts k' task' rest I3) as (Hsum' & Hk' & Hrest).
      assert (k' = S k) as -> by lia.
      unfold nextStarted.
      constructor; unfold settledSteps; unfold attempted;
        cbn [serial pending chain_then chain runner heap log runnerCalls
             handlerCalls openRuns sequenced];
        rewrite ?HrunL; try done.
      * rewrite I4, Hatt, length_app, length_seq. cbn [length].
        by rewrite Nat.add_1_r, (seq_S (S k)).
      * rewrite length_app, I4, Hatt, length_seq. cbn [length].
        rewrite Nat.add_1_r. cbn [pred]. exact HhL.
      * repeat split; try done.
        -- by apply list_lookup_middle.
        -- rewrite length_app, I4, Hatt, length_seq. cbn. lia.
        -- by rewrite HoL.
        -- by left.
        -- by apply handlerRan_cons, Hall.
        -- by apply runnerEnded_cons, Hall.
      * intros q' Q' HQ' HO.
        apply lookup_app_Some in HQ' as [HQ'|[Hge HQ']].
        -- left. by apply (Hidle q').
        -- apply list_lookup_singleton_Some in HQ' as [H0 <-].
           right. exists (S k), task'. repeat f_equal. lia.
      * split; [|done]. split; [done|]. by apply Hall.
  - (* reactions never leave the chain awaiting *)
    exfalso. subst R. unfold reactionOf, fulfilledReaction, rejectedReaction in HR.
    destruct (taskOutcome (runner st) task); cbn [index0] in HR;
      destruct (handler task) as [h|]; cbn [snd] in HR;
      repeat match type of HR with
             | context [match ?x with _ => _ end] => destruct x; cbn [snd] in HR
             end; discriminate.
  - (* the chain is rejected *)
    constructor; unfold settledSteps; rewrite ?HattL;
      cbn [serial pending chain_then chain runner mid settledState]; fold R;
      rewrite ?HR; try done.
    + by rewrite HrunL, I4, Hatt.
    + repeat split; try done; try lia. exists k, task. by split.
    + intros q' Q' HQ' HO. left. by apply (Hidle q').
Qed.

(** ** The chain over all runs *)

Lemma enqueued_app a b : enqueued (a ++ b) = enqueued a ++ enqueued b.
Proof.
  induction a as [|inp a IH]; [done|].
  destruct inp; cbn [app enqueued]; by rewrite ?IH.
Qed.

Lemma ChainInv_init r n : ChainInv [] (init r n).
Proof. constructor; try done. cbn. repeat split; try done; lia. Qed.

Lemma ChainInv_settle ts st q i :
  ChainInv ts st -> ChainInv ts (step st (Settle q i)).
Proof.
  intros HI.
  assert (Hnoop : workerDone q i st = st -> ChainInv ts (step st (Settle q i))).
  { intros H. cbn [step]. rewrite H. by rewrite (rest_noop ts). }
  destruct (heap st !! q) as [Q|] eqn:HQ.
  2:{ apply Hnoop, workerDone_noop. by rewrite HQ. }
  destruct (q_owner Q) as [|k0] eqn:HO.
  - cbn [step]. pose proof (ChainInv_workerDone_direct ts st q i Q HQ HO HI) as HW.
    by rewrite (rest_noop ts).
  - destruct (ci_idle _ _ HI q Q HQ) as [[_ Hw]|(k & task & Hc)].
    + by rewrite HO.
    + apply Hnoop, workerDone_noop. by rewrite HQ, Hw.
    + pose proof (ci_status _ _ HI) as Hst. rewrite Hc in Hst.
      destruct Hst as (HQ' & _). rewrite HQ in HQ'. injection HQ' as ->.
      destruct i as [|i].
      * by apply (ChainInv_settle_awaited ts st q k task).
      * apply Hnoop, workerDone_noop. by rewrite HQ.
Qed.

Lemma ChainInv_step ts st inp :
  ChainInv ts st -> ChainInv (ts ++ enqueued [inp]) (step st inp).
Proof.
  intros HI. destruct inp as [g|t|q i]; cbn [enqueued]; rewrite ?app_nil_r.
  - by apply ChainInv_submit.
  - by apply ChainInv_enqueue.
  - by apply ChainInv_settle.
Qed.

Lemma ChainInv_run r n ins : ChainInv (enqueued ins) (run (init r n) ins).
Proof.
  induction ins as [|inp ins IH] using rev_ind.
  - apply ChainInv_init.
  - rewrite run_snoc, enqueued_app. by apply ChainInv_step.
Qed.

(** Once the chain is rejected it stays so: no later input makes it run
    a step or invoke a handler. *)
Lemma rejected_step ts st inp e :
  ChainInv ts st -> chain st = ChainRejected e ->
  chain (step st inp) = ChainRejected e /\
  runnerCalls (log (step st inp)) = runnerCalls (log st) /\
  handlerCalls (log (step st inp)) = handlerCalls (log st).
Proof.
  intros HI Hc. destruct inp as [g|t|q i].
  - cbn [step]. rewrite process_eq. cbn [snd].
    destruct (tasksOf g); cbn [chain log]; [done|].
    destruct (startEvents_direct (length (heap st))
                (mkQueue (slotsOf (t :: l)) [] []
                   (String.eqb (varType g) arrType) Pending Direct)
                (Pos.to_nat (concurrency st)) eq_refl) as [Hoff Hno].
    by rewrite runnerCalls_offChain, handlerCalls_app, Hno, app_nil_r.
  - cbn [step]. rewrite processChain_waiting by (by rewrite Hc). done.
  - assert (Hnoop : workerDone q i st = st ->
              chain (step st (Settle q i)) = ChainRejected e /\
              runnerCalls (log (step st (Settle q i))) = runnerCalls (log st) /\
              handlerCalls (log (step st (Settle q i))) = handlerCalls (log st)).
    { intros H. cbn [step]. rewrite H. by rewrite (rest_noop ts). }
    destruct (heap st !! q) as [Q|] eqn:HQ.
    2:{ apply Hnoop, workerDone_noop. by rewrite HQ. }
    destruct (findSlot i (q_workers Q)) as [task|] eqn:Hs.
    2:{ apply Hnoop, workerDone_noop. by rewrite HQ. }
    destruct (q_owner Q) as [|k0] eqn:HO.
    + cbn [step].
      pose proof (ChainInv_workerDone_direct ts st q i Q HQ HO HI) as HW.
      rewrite (rest_noop ts) by done.
      rewrite (workerDone_eq _ _ _ _ _ HQ Hs). cbn [chain log].
      set (out := taskOutcome (runner st) task).
      assert (HO1 : q_owner (signal out (pushResult i out Q)) = Direct).
      { by destruct (signal_fields out (pushResult i out Q)) as (_ & _ & _ & _ & ->). }
      destruct (startEvents_direct q _ (Pos.to_nat (concurrency st)) HO1)
        as [Hoff Hno].
      rewrite runnerCalls_offChain, handlerCalls_app, Hno by done.
      by rewrite app_nil_r.
    + destruct (ci_idle _ _ HI q Q HQ) as [[_ Hw]|(k & task' & Hk)].
      * by rewrite HO.
      * by rewrite Hw in Hs.
      * rewrite Hc in Hk. discriminate.
Qed.

Lemma rejected_chain_is_dead r n ins more e :
  chain (run (init r n) ins) = ChainRejected e ->
  chain (run (init r n) (ins ++ more)) = ChainRejected e /\
  runnerCalls (log (run (init r n) (ins ++ more)))
    = runnerCalls (log (run (init r n) ins)) /\
  handlerCalls (log (run (init r n) (ins ++ more)))
    = handlerCalls (log (run (init r n) ins)).
Proof.
  intros Hc. induction more as [|inp more IH] using rev_ind.
  - by rewrite app_nil_r.
  - rewrite app_assoc, run_snoc. destruct IH as (IH1 & IH2 & IH3).
    destruct (rejected_step _ _ inp e (ChainInv_run r n (ins ++ more)) IH1)
      as (-> & -> & ->).
    done.
Qed.

(** C4: in every run, whatever the concurrency, each step of the chain
    has at most one runner call; when the runner call of step [k] is
    made, no runner call of the chain is outstanding, and every step
    before [k] has had its runner call settled and its handler run; and
    a runner call of a step settles only after it was made. *)
Theorem chained_runs_are_sequential r n ins :
  let lg := log (run (init r n) ins) in
  List.NoDup (runnerCalls lg) /\
  (forall later k q i earlier,
     lg = later ++ RunnerStart (Step k) q i :: earlier ->
     openRuns earlier = 0 /\
     forall j, j < k -> handlerRan j earlier /\ runnerEnded j earlier) /\
  (forall later k q i earlier,
     lg = later ++ RunnerEnd (Step k) q i :: earlier ->
     In (RunnerStart (Step k) q i) earlier).
Proof.
  intros lg. pose proof (ChainInv_run r n ins) as HI.
  pose proof (ci_seq _ _ HI) as Hs. fold lg in Hs.
  split; [|split].
  - subst lg. rewrite (ci_runs _ _ HI). apply seq_NoDup.
  - intros later k q i earlier Hlg. rewrite Hlg in Hs.
    apply sequenced_split in Hs. by destruct Hs as [? _].
  - intros later k q i earlier Hlg. rewrite Hlg in Hs.
    apply sequenced_split in Hs. by destruct Hs as [? _].
Qed.

(** Three chained tasks on an instance of concurrency 2, the second
    failing: the three runner calls are made one after the other, each
    after the handler of the step before. *)
Example chained_runs_are_sequential_example :
  rev (log (run (init demoRunner 2)
              [Enqueue (demoChained "A" quietHandler);
               Enqueue (demoChained "bad" quietHandler);
               Enqueue (demoChained "C" quietHandler);
               Settle 0 0; Settle 1 0; Settle 2 0]))
  = [RunnerStart (Step 0) 0 0; RunnerEnd (Step 0) 0 0;
     HandlerRan 0 None (VString "ok-A") (Ok tt);
     RunnerStart (Step 1) 1 0; RunnerEnd (Step 1) 1 0;
     HandlerRan 1 (Some (MkError "boom")) VUndefined (Ok tt);
     RunnerStart (Step 2) 2 0; RunnerEnd (Step 2) 2 0;
     HandlerRan 2 None (VString "ok-C") (Ok tt)].
Proof. by vm_compute. Qed.

Lemma reactionOf_returns r k task :
  returnsOnDelivery r task ->
  exists u,
    reactionOf r k task =
    ([HandlerRan k (fst (delivery r task)) (snd (delivery r task)) (Ok u)],
     ChainFulfilled).
Proof.
  intros (h & u & Hh & Hok). exists u. unfold reactionOf, delivery in *.
  destruct (taskOutcome r task) as [v|e]; cbn [fst snd] in *.
  - unfold fulfilledReaction. cbn [index0]. by rewrite Hh, Hok.
  - unfold rejectedReaction. by rewrite Hh, Hok.
Qed.

Lemma concat_imap_singleton {A B} (f : nat -> A -> list B) (g : nat -> A -> B)
    (l : list A) :
  (forall i x, l !! i = Some x -> f i x = [g i x]) ->
  concat (imap f l) = imap g l.
Proof.
  revert f g. induction l as [|x l IH]; intros f g H; [done|].
  cbn [imap concat]. rewrite (H 0 x eq_refl). cbn [app]. f_equal.
  apply IH. intros i y Hy. by apply (H (S i)).
Qed.

(** C5 (amended): when the handler of every chained task returns on
    what its step is owed ([(null, result)] when the task succeeds,
    [(err)] when it fails), then once no runner call of the chain is
    outstanding a runner call has been made for every chained task, in
    the order of [processChain], whichever of them failed, and the
    handler of every task has been invoked exactly once, with the
    outcome of its own task. *)
Theorem chain_steps_run_independently r n ins :
  let st := run (init r n) ins in
  let ts := enqueued ins in
  (forall t, In t ts -> returnsOnDelivery r t) ->
  openRuns (log st) = 0 ->
  runnerCalls (log st) = seq 0 (length ts) /\
  handlerCalls (log st) =
    imap (fun k t => (k, fst (delivery r t), snd (delivery r t))) ts.
Proof.
  intros st ts Hnt Hopen.
  pose proof (ChainInv_run r n ins) as HI. fold st ts in HI.
  assert (Hr : runner st = r).
  { subst st. by destruct (run_config (init r n) ins) as [-> _]. }
  pose proof (ci_status _ _ HI) as Hst.
  pose proof (ci_handlers _ _ HI) as Hh.
  pose proof (ci_runs _ _ HI) as Hruns.
  unfold settledSteps in Hh.
  destruct (chain st) as [|q k task|e].
  - destruct Hst as (_ & Hatt & _). rewrite Hatt in Hh, Hruns.
    split; [exact Hruns|].
    rewrite Hh, firstn_all, Hr. apply concat_imap_singleton.
    intros i t Ht. destruct (reactionOf_returns r i t) as [u ->]; [|done].
    apply Hnt, list_elem_of_In. eapply list_elem_of_lookup_2; eauto.
  - destruct Hst as (_ & _ & _ & _ & Ho & _). rewrite Ho in Hopen. discriminate.
  - destruct Hst as (_ & _ & k & task & Hk & Hrej).
    destruct (reactionOf_returns (runner st) k task) as [u Hu].
    { rewrite Hr. apply Hnt, list_elem_of_In.
      eapply list_elem_of_lookup_2; eauto. }
    rewrite Hu in Hrej. discriminate.
Qed.

Lemma chain_steps_run_independently_witness :
  handlerCalls (log (run (init demoRunner 2)
                       [Enqueue (demoChained "A" quietHandler);
                        Enqueue (demoChained "bad" quietHandler);
                        Enqueue (demoChained "C" rethrowingHandler);
                        Settle 0 0; Settle 1 0; Settle 2 0]))
  = imap (fun k t => (k, fst (delivery demoRunner t), snd (delivery demoRunner t)))
      (enqueued [Enqueue (demoChained "A" quietHandler);
                 Enqueue (demoChained "bad" quietHandler);
                 Enqueue (demoChained "C" rethrowingHandler);
                 Settle 0 0; Settle 1 0; Settle 2 0]).
Proof.
  refine (proj2 (chain_steps_run_independently demoRunner 2
            [Enqueue (demoChained "A" quietHandler);
             Enqueue (demoChained "bad" quietHandler);
             Enqueue (demoChained "C" rethrowingHandler);
             Settle 0 0; Settle 1 0; Settle 2 0] _ _)).
  - intros t [<-|[<-|[<-|[]]]];
      [exists quietHandler, tt|exists quietHandler, tt|exists rethrowingHandler, tt];
      by split.
  - by vm_compute.
Defined.

(** C5, as stated, fails: the first step fails and its handler throws
    the error it is handed; every runner call has settled, the chain is
    rejected, and the second step is still in [pending]: no runner call
    was made for it and its handler was not invoked. *)
Lemma later_steps_not_run_after_throw :
  let ins := [Enqueue (demoChained "bad" rethrowingHandler);
              Enqueue (demoChained "next" quietHandler);
              Settle 0 0] in
  let st := run (init demoRunner 1) ins in
  openRuns (log st) = 0 /\
  Forall (fun Q => queueIdle Q = true) (heap st) /\
  chain st = ChainRejected (MkError "boom") /\
  map fst (pending st) = [1] /\
  runnerCalls (log st) = [0] /\
  handlerCalls (log st) = [(0, Some (MkError "boom"), VUndefined)] /\
  forall more,
    runnerCalls (log (run (init demoRunner 1) (ins ++ more))) = [0] /\
    handlerCalls (log (run (init demoRunner 1) (ins ++ more)))
      = [(0, Some (MkError "boom"), VUndefined)].
Proof.
  cbn zeta.
  do 6 (split; [solve [by vm_compute | vm_compute; by repeat constructor]|]).
  intros more.
  assert (Hc : chain (run (init demoRunner 1)
                        [Enqueue (demoChained "bad" rethrowingHandler);
                         Enqueue (demoChained "next" quietHandler);
                         Settle 0 0]) = ChainRejected (MkError "boom"))
    by (by vm_compute).
  destruct (rejected_chain_is_dead demoRunner 1 _ more _ Hc) as (_ & -> & ->).
  by vm_compute.
Qed.

(** C10 (amended): when the runner call of the step the chain awaits
    succeeds, the parser of the task, if any, returns on its output, and
    the handler of the step throws on the result, the same
    handler is invoked a second time with what it threw as the error and
    no result.  If that second invocation returns, the chain goes on: the
    next step appended, if any, is shifted off [pending] and its runner
    call is made.  If it throws, the chain is rejected with what it
    threw, and [pending] is left as it is. *)
Theorem throwing_handler_is_called_again r n ins q k task data v h e :
  let st := run (init r n) ins in
  chain st = ChainAwaiting q k task ->
  r (command task) (options task) = Ok data ->
  parsed task data = Ok v ->
  handler task = Some h ->
  h None v = Fail e ->
  calledAgain ins st q k v h e.
Proof.
  intros st Hc Hrun Hparsed Hh Hthrow. unfold calledAgain.
  set (st' := step st (Settle q 0)).
  set (first := HandlerRan k None v (Fail e)).
  set (again := HandlerRan k (Some e) VUndefined (h (Some e) VUndefined)).
  pose proof (ChainInv_run r n ins) as HI. fold st in HI.
  assert (Hr : runner st = r).
  { subst st. by destruct (run_config (init r n) ins) as [-> _]. }
  pose proof (ci_status _ _ HI) as Hst. rewrite Hc in Hst.
  destruct Hst as (HQ & Hk & Hsum & _).
  pose proof (ci_pending _ _ HI) as Hp.
  pose proof (ci_then _ _ HI) as Hthen.
  subst st'. rewrite (settle_awaited_eq _ _ _ _ Hc HQ), (chainAdvance_settled _ _ _ _ Hp).
  assert (HR : reactionOf (runner st) k task =
               ([again; first],
                match h (Some e) VUndefined with
                | Ok _ => ChainFulfilled
                | Fail e' => ChainRejected e'
                end)).
  { unfold reactionOf. rewrite Hr, (taskOutcome_ok _ _ _ Hrun), Hparsed.
    unfold fulfilledReaction, rejectedReaction. cbn [index0].
    rewrite Hh, Hthrow. reflexivity. }
  unfold nextStarted, settledState. rewrite HR. cbn [fst snd].
  destruct (h (Some e) VUndefined) as [u|e'] eqn:Hagain.
  - rewrite Hp. destruct (chain_then st) as [|[k' task'] rest] eqn:Ht.
    + by split.
    + cbn [length] in Hsum, Hthen.
      destruct (then_head _ _ _ _ Hthen) as (Hsum' & Hk' & _).
      cbn [chain pending log heap]. rewrite length_insert.
      repeat split; try done. lia.
  - by repeat split.
Qed.

Lemma throwing_handler_is_called_again_witness :
  calledAgain
    [Enqueue (demoChained "A" pickyHandler); Enqueue (demoChained "B" quietHandler)]
    (run (init demoRunner 1)
       [Enqueue (demoChained "A" pickyHandler);
        Enqueue (demoChained "B" quietHandler)])
    0 0 (VString "ok-A") pickyHandler (MkError "picky").
Proof.
  apply (throwing_handler_is_called_again demoRunner 1 _ 0 0
           (demoChained "A" pickyHandler) "ok-A" (VString "ok-A") pickyHandler
           (MkError "picky"));
    by vm_compute.
Defined.

(** C10, as stated, fails: the handler of the first step throws on the
    result and throws again on what it threw; it was invoked twice, the
    chain is rejected, and no runner call was made for the second
    step. *)
Lemma chain_stops_when_handler_throws_twice :
  let ins := [Enqueue (demoChained "A" throwingHandler);
              Enqueue (demoChained "B" quietHandler);
              Settle 0 0] in
  let st := run (init demoRunner 1) ins in
  handlerCalls (log st) =
    [(0, None, VString "ok-A"); (0, Some (MkError "handler"), VUndefined)] /\
  chain st = ChainRejected (MkError "handler") /\
  map fst (pending st) = [1] /\
  runnerCalls (log st) = [0] /\
  openRuns (log st) = 0 /\
  Forall (fun Q => queueIdle Q = true) (heap st) /\
  forall more, runnerCalls (log (run (init demoRunner 1) (ins ++ more))) = [0].
Proof.
  cbn zeta.
  do 6 (split; [solve [by vm_compute | vm_compute; by repeat constructor]|]).
  intros more.
  assert (Hc : chain (run (init demoRunner 1)
                        [Enqueue (demoChained "A" throwingHandler);
                         Enqueue (demoChained "B" quietHandler);
                         Settle 0 0]) = ChainRejected (MkError "handler"))
    by (by vm_compute).
  destruct (rejected_chain_is_dead demoRunner 1 _ more _ Hc) as (_ & -> & _).
  by vm_compute.
Qed.

(** ** The public operations *)

Lemma process_fst g o st : fst (process g o st) = length (heap st).
Proof. reflexivity. Qed.

Lemma route_eq task st :
  (if negb (isAsyncHandler task)
   then let (q, st') := process (Single task) Direct st in (ReturnsPromise q, st')
   else (ReturnsThis, processChain task st))
  = match handler task with
    | Some _ => (ReturnsThis, step st (Enqueue task))
    | None => (ReturnsPromise (length (heap st)), step st (Submit (Single task)))
    end.
Proof.
  cbn [step]. unfold isAsyncHandler.
  destruct (handler task); cbn [negb]; [reflexivity|].
  pose proof (process_fst (Single task) Direct st) as Hq.
  destruct (process (Single task) Direct st) as [q st']. cbn in Hq |- *.
  by rewrite Hq.
Qed.

(** C6: whatever the helpers and the builders, each public operation
    hands the task it built to the chain sequencer and returns the
    instance when the [handler] of the task is a function, and hands it
    to the executor and returns the future when the task has no
    [handler]; nothing else of the task, of the arguments or of the
    state of the instance bears on the route. *)
Theorem operations_route_by_handler
    (trailingArrayArgument : list Arg -> list string)
    (trailingOptionsArgument : list Arg -> Options)
    (trailingFunctionArgument : list Arg -> option Handler)
    (commands_clone : list string -> Options -> option Handler -> Task)
    (commands_status : option Handler -> Task)
    (commands_stashList commands_stash :
       list string -> Options -> option Handler -> Task)
    (c : Call) (st : State) :
  let task :=
    builtTask trailingArrayArgument trailingOptionsArgument
      trailingFunctionArgument commands_clone commands_status
      commands_stashList commands_stash c in
  perform trailingArrayArgument trailingOptionsArgument trailingFunctionArgument
    commands_clone commands_status commands_stashList commands_stash c st
  = routeByHandler task st.
Proof.
  cbn zeta. unfold routeByHandler.
  destruct c; cbn [perform builtTask];
    unfold mirror, clone, status, stashList, stash, cloneTask; apply route_eq.
Qed.

(** C9: [mirror] is [clone] on the two paths, the flag [--mirror] and
    the remaining arguments: the same state and the same value returned;
    the task built is the one [clone] builds from these arguments, its
    command being the trailing array argument followed by the two
    paths. *)
Theorem mirror_is_clone_with_flag
    (trailingArrayArgument : list Arg -> list string)
    (trailingOptionsArgument : list Arg -> Options)
    (trailingFunctionArgument : list Arg -> option Handler)
    (commands_clone : list string -> Options -> option Handler -> Task)
    (commands_status : option Handler -> Task)
    (commands_stashList commands_stash :
       list string -> Options -> option Handler -> Task)
    (repoPath localPath : string) (args : list Arg) (st : State) :
  let injected :=
    AString repoPath :: AString localPath :: AArray ["--mirror"%string] :: args in
  mirror trailingArrayArgument trailingOptionsArgument trailingFunctionArgument
    commands_clone repoPath localPath args st
  = mirrorAsSpecified trailingArrayArgument trailingOptionsArgument
      trailingFunctionArgument commands_clone repoPath localPath args st /\
  perform trailingArrayArgument trailingOptionsArgument trailingFunctionArgument
    commands_clone commands_status commands_stashList commands_stash
    (CallMirror repoPath localPath args) st
  = perform trailingArrayArgument trailingOptionsArgument trailingFunctionArgument
      commands_clone commands_status commands_stashList commands_stash
      (CallClone injected) st /\
  builtTask trailingArrayArgument trailingOptionsArgument trailingFunctionArgument
    commands_clone commands_status commands_stashList commands_stash
    (CallMirror repoPath localPath args)
  = commands_clone (trailingArrayArgument injected ++ [repoPath; localPath])
      (trailingOptionsArgument injected) (trailingFunctionArgument injected).
Proof. cbn zeta. repeat split. Qed.

(** ** Workers under the limit *)

Lemma removeSlot_length i (l : list (nat * Task)) :
  length (removeSlot i l) <= length l.
Proof.
  induction l as [|[j t] l IH]; cbn; [lia|].
  destruct (Nat.eqb j i); cbn; lia.
Qed.

Lemma startQ_staffed limit Q :
  length (q_workers Q) <= limit -> staffed limit (startQ limit Q).
Proof.
  intros Hw. unfold staffed, startQ. cbn [q_tasks q_workers].
  rewrite shiftTasks_take, length_app, length_take.
  split; [lia|].
  destruct (Nat.le_gt_cases (length (q_tasks Q)) (limit - length (q_workers Q))).
  - left. apply drop_ge. lia.
  - right. lia.
Qed.

Lemma workerDoneQ_staffed limit i out Q :
  staffed limit Q -> staffed limit (workerDoneQ limit i out Q).
Proof.
  intros [Hw _]. apply startQ_staffed.
  destruct (signal_fields out (pushResult i out Q)) as (_ & -> & _).
  cbn [pushResult q_workers].
  pose proof (removeSlot_length i (q_workers Q)). lia.
Qed.

Lemma stepQueue_staffed n k task : staffed (Pos.to_nat n) (stepQueue k task).
Proof.
  unfold staffed, stepQueue. cbn. pose proof (Pos2Nat.is_pos n).
  split; [lia|by left].
Qed.

Lemma allStaffed_ext a b :
  heap b = heap a -> concurrency b = concurrency a -> allStaffed a -> allStaffed b.
Proof. unfold allStaffed. by intros -> ->. Qed.

Lemma process_staffed g o st : allStaffed st -> allStaffed (snd (process g o st)).
Proof.
  unfold allStaffed. rewrite process_eq. cbn [snd]. intros H.
  destruct (tasksOf g) as [|t ts] eqn:Hts; cbn [heap concurrency];
    apply Forall_app; (split; [exact H|]); apply Forall_singleton.
  - unfold staffed. cbn. split; [lia|by left].
  - apply startQ_staffed. cbn. lia.
Qed.

Lemma workerDone_staffed q i st : allStaffed st -> allStaffed (workerDone q i st).
Proof.
  intros H.
  destruct (heap st !! q) as [Q|] eqn:HQ.
  2:{ rewrite workerDone_noop; [done|]. by rewrite HQ. }
  destruct (findSlot i (q_workers Q)) as [task|] eqn:Hs.
  2:{ rewrite workerDone_noop; [done|]. by rewrite HQ. }
  rewrite (workerDone_eq _ _ _ _ _ HQ Hs).
  unfold allStaffed in *. cbn [heap concurrency].
  apply Forall_insert; [exact H|].
  apply workerDoneQ_staffed. eapply Forall_lookup_1; eauto.
Qed.

Lemma runContinuations_staffed cs st :
  allStaffed st -> allStaffed (runContinuations cs st).
Proof.
  revert st. induction cs as [|[k task] rest IH]; intros st H.
  - exact H.
  - destruct (pending st) as [|next rest'] eqn:Hp.
    + cbn [runContinuations]. rewrite Hp. by apply IH.
    + rewrite (runContinuations_cons _ _ _ _ _ _ Hp).
      unfold allStaffed in *. cbn [heap concurrency].
      apply Forall_app. split; [exact H|].
      apply Forall_singleton, stepQueue_staffed.
Qed.

Lemma chainAdvance_staffed st : allStaffed st -> allStaffed (chainAdvance st).
Proof.
  unfold chainAdvance. destruct (chain st); try done.
  apply runContinuations_staffed.
Qed.

Lemma chainReact_staffed st : allStaffed st -> allStaffed (chainReact st).
Proof.
  apply allStaffed_ext.
  - apply chainReact_registry.
  - by destruct (frame_chainReact 0 st) as (_ & ? & _).
Qed.

Lemma step_staffed st inp : allStaffed st -> allStaffed (step st inp).
Proof.
  intros H. destruct inp as [g|t|q i]; cbn [step].
  - by apply process_staffed.
  - unfold processChain. apply chainAdvance_staffed. exact H.
  - by apply chainAdvance_staffed, chainReact_staffed, workerDone_staffed.
Qed.

Lemma run_staffed st ins : allStaffed st -> allStaffed (run st ins).
Proof.
  revert st. induction ins as [|inp ins IH]; intros st H; [done|].
  apply (IH (step st inp)). by apply step_staffed.
Qed.

(** ** Settled futures *)

Lemma frame_rest q W : frame q W (chainAdvance (chainReact W)).
Proof.
  eapply frame_trans; [apply frame_chainReact|apply frame_chainAdvance].
Qed.

Lemma frame_step q st inp :
  (forall i, inp = Settle q i -> workerDone q i st = st) ->
  frame q st (step st inp).
Proof.
  intros Hn. destruct inp as [g|t|q' i]; cbn [step].
  - apply frame_process.
  - apply frame_processChain.
  - eapply frame_trans; [|apply frame_rest].
    destruct (decide (q' = q)) as [->|Hne].
    + rewrite (Hn i eq_refl). apply frame_refl.
    + by apply frame_workerDone.
Qed.

Lemma settle_cases q Q inp :
  (exists i task, inp = Settle q i /\ findSlot i (q_workers Q) = Some task) \/
  (forall st, heap st !! q = Some Q ->
     forall i, inp = Settle q i -> workerDone q i st = st).
Proof.
  destruct inp as [g|t|q' i]; try (right; intros; discriminate).
  destruct (decide (q' = q)) as [->|Hne]; [|right; intros; congruence].
  destruct (findSlot i (q_workers Q)) as [task|] eqn:Hs; [left; eauto|].
  right. intros st HQ i' [= <-]. apply workerDone_noop. by rewrite HQ.
Qed.

Lemma settled_step st inp q Q :
  heap st !! q = Some Q -> future Q <> Pending ->
  exists Q', heap (step st inp) !! q = Some Q' /\ future Q' = future Q.
Proof.
  intros HQ Hf.
  assert (Hlt : q < length (heap st)) by (eapply lookup_lt_Some; eauto).
  assert (Hframe : forall st', frame q st st' ->
            exists Q', heap st' !! q = Some Q' /\ future Q' = future Q).
  { intros st' (_ & _ & _ & Hh & _). exists Q. by rewrite Hh. }
  destruct (settle_cases q Q inp) as [(i & task & -> & Hs')|Hno].
  - cbn [step].
    destruct (frame_rest q (workerDone q i st)) as (_ & _ & _ & Hh & _).
    rewrite Hh by (by rewrite workerDone_length).
    rewrite (workerDone_eq _ _ _ _ _ HQ Hs'). cbn [heap].
    eexists. split; [by apply list_lookup_insert_eq|].
    rewrite workerDoneQ_future. by destruct (future Q).
  - apply Hframe, frame_step. by apply Hno.
Qed.

(** ** The runner calls of a queue *)

Lemma starts_startEvents q q' Q limit lg :
  starts q (startEvents q' Q limit ++ lg) =
  starts q lg ++
  (if Nat.eqb q' q then map fst (shiftTasks limit (q_tasks Q) (q_workers Q))
   else []).
Proof.
  unfold startEvents.
  generalize (shiftTasks limit (q_tasks Q) (q_workers Q)). intros l.
  revert lg. induction l as [|s l IH]; intros lg.
  - cbn. destruct (Nat.eqb q' q); by rewrite app_nil_r.
  - cbn [map rev]. rewrite <- app_assoc. cbn [app]. rewrite IH. cbn [starts].
    destruct (Nat.eqb q' q); cbn [map]; [|done].
    by rewrite <- app_assoc.
Qed.

Lemma starts_rejected q k task err lg :
  starts q (fst (rejectedReaction k task err) ++ lg) = starts q lg.
Proof. unfold rejectedReaction. by destruct (handler task). Qed.

Lemma starts_fulfilled q k task data lg :
  starts q (fst (fulfilledReaction k task data) ++ lg) = starts q lg.
Proof.
  unfold fulfilledReaction.
  destruct (index0 data); [|apply starts_rejected].
  destruct (handler task) as [h|] eqn:Hh; [|apply starts_rejected].
  destruct (h None a); [done|]. cbn [fst].
  rewrite <- app_assoc. by rewrite starts_rejected.
Qed.

Lemma process_heap g o st :
  length (heap (snd (process g o st))) = S (length (heap st)).
Proof.
  rewrite process_eq. cbn [snd].
  destruct (tasksOf g); cbn [heap]; rewrite length_app; cbn; lia.
Qed.

Lemma starts_process q g o st :
  q <> length (heap st) ->
  starts q (log (snd (process g o st))) = starts q (log st).
Proof.
  intros Hne. rewrite process_eq. cbn [snd].
  destruct (tasksOf g); cbn [log]; [done|].
  rewrite starts_startEvents.
  destruct (Nat.eqb_spec (length (heap st)) q); [by subst|].
  by rewrite app_nil_r.
Qed.

Lemma starts_chainReact q st : starts q (log (chainReact st)) = starts q (log st).
Proof.
  unfold chainReact.
  destruct (chain st); try done.
  destruct (heap st !! q0) as [Q|]; try done.
  destruct (future Q); try done.
  - rewrite onFulfilled_eq. unfold_setters. apply starts_fulfilled.
  - rewrite onRejected_eq. unfold_setters. apply starts_rejected.
Qed.

Lemma starts_runContinuations q cs st :
  q < length (heap st) \/ length (heap (runContinuations cs st)) <= q ->
  starts q (log (runContinuations cs st)) = starts q (log st).
Proof.
  revert st. induction cs as [|[k task] rest IH]; intros st H.
  - done.
  - destruct (pending st) as [|next rest'] eqn:Hp.
    + cbn [runContinuations] in *. rewrite Hp in *. by apply IH.
    + rewrite (runContinuations_cons _ _ _ _ _ _ Hp) in *.
      cbn [heap log starts] in *. rewrite length_app in H. cbn in H.
      destruct (Nat.eqb_spec (length (heap st)) q); [lia|done].
Qed.

Lemma starts_chainAdvance q st :
  q < length (heap st) \/ length (heap (chainAdvance st)) <= q ->
  starts q (log (chainAdvance st)) = starts q (log st).
Proof.
  unfold chainAdvance. destruct (chain st); try done.
  apply starts_runContinuations.
Qed.

Lemma starts_rest q W :
  q < length (heap W) \/ length (heap (chainAdvance (chainReact W))) <= q ->
  starts q (log (chainAdvance (chainReact W))) = starts q (log W).
Proof.
  intros H. rewrite starts_chainAdvance, starts_chainReact; [done|].
  destruct (chainReact_registry W) as [_ ->]. exact H.
Qed.

Lemma starts_workerDone q q' i st :
  q' <> q -> starts q (log (workerDone q' i st)) = starts q (log st).
Proof.
  intros Hne.
  destruct (heap st !! q') as [Q|] eqn:HQ.
  2:{ rewrite workerDone_noop; [done|]. by rewrite HQ. }
  destruct (findSlot i (q_workers Q)) as [task|] eqn:Hs.
  2:{ rewrite workerDone_noop; [done|]. by rewrite HQ. }
  rewrite (workerDone_eq _ _ _ _ _ HQ Hs). cbn [log].
  rewrite starts_startEvents. cbn [starts].
  destruct (Nat.eqb_spec q' q); [done|]. by rewrite app_nil_r.
Qed.

Lemma starts_step q st inp :
  q < length (heap st) \/ length (heap (step st inp)) <= q ->
  (forall i, inp = Settle q i -> workerDone q i st = st) ->
  starts q (log (step st inp)) = starts q (log st).
Proof.
  intros H Hn. destruct inp as [g|t|q' i]; cbn [step] in *.
  - apply starts_process. rewrite process_heap in H. lia.
  - unfold processChain in *. by rewrite starts_chainAdvance.
  - rewrite starts_rest by (by rewrite workerDone_length).
    destruct (decide (q' = q)) as [->|Hne].
    + by rewrite (Hn i eq_refl).
    + by apply starts_workerDone.
Qed.

Lemma starts_unborn r n ins q :
  length (heap (run (init r n) ins)) <= q ->
  starts q (log (run (init r n) ins)) = [].
Proof.
  revert q. induction ins as [|inp ins IH] using rev_ind; intros q; [done|].
  rewrite run_snoc. intros H.
  pose proof (step_heap_length (run (init r n) ins) inp) as Hlen.
  rewrite starts_step.
  - apply IH. lia.
  - by right.
  - intros i _. apply workerDone_noop.
    rewrite (lookup_ge_None_2 (heap _)); [done|lia].
Qed.

Lemma started_slots r limit g Q done :
  QueueInv r limit g Q done ->
  map fst (shiftTasks limit (q_tasks Q) (q_workers Q)) =
  seq (length done + length (q_workers Q))
    (length (q_workers (startQ limit Q)) - length (q_workers Q)).
Proof.
  intros [Ht _ _ _ _ _ _ _ _].
  unfold startQ. cbn [q_workers]. rewrite length_app.
  replace (length (q_workers Q) + _ - length (q_workers Q))
    with (length (shiftTasks limit (q_tasks Q) (q_workers Q))) by lia.
  rewrite shiftTasks_take, Ht, length_take, length_drop, slots_length.
  rewrite map_fmap, fmap_take, <- map_fmap, map_fst_drop_slots, take_seq.
  reflexivity.
Qed.

Lemma fresh_inv r limit g o :
  tasksOf g <> [] ->
  QueueInv r limit g
    (mkQueue (slotsOf (tasksOf g)) [] [] (String.eqb (varType g) arrType)
       Pending o) [].
Proof.
  intros Hne. destruct (tasksOf g) as [|t ts] eqn:Hts; [done|].
  constructor; rewrite ?Hts;
    cbn [q_tasks q_workers results resolveFirst future q_owner length];
    rewrite ?Hts; try done; cbn; lia.
Qed.

Lemma submitted_starts r n pre g post :
  let st0 := run (init r n) pre in
  let q := length (heap st0) in
  let st := run st0 (Submit g :: post) in
  exists Q, heap st !! q = Some Q /\
    starts q (log st) = seq 0 (length (completions q (log st)) + length (q_workers Q)).
Proof.
  intros st0 q.
  assert (Hcfg0 : runner st0 = r /\ concurrency st0 = n).
  { subst st0. by destruct (run_config (init r n) pre) as [-> ->]. }
  induction post as [|inp post IH] using rev_ind; intros st.
  - subst st. cbn [run fold_left step]. rewrite process_eq. cbn [snd].
    destruct Hcfg0 as [Hr Hn]. rewrite Hn.
    assert (Hun : completions q (log st0) = []).
    { subst st0 q. by apply run_unborn. }
    assert (Hus : starts q (log st0) = []).
    { subst st0 q. by apply starts_unborn. }
    destruct (tasksOf g) as [|t ts] eqn:Hts; cbn [heap log].
    + eexists. split; [by apply list_lookup_middle|]. by rewrite Hun, Hus.
    + eexists. split; [by apply list_lookup_middle|].
      rewrite completions_starts, Hun, starts_startEvents, Hus, Nat.eqb_refl.
      assert (HI : QueueInv r (Pos.to_nat n) g
                (mkQueue (slotsOf (tasksOf g)) [] []
                   (String.eqb (varType g) arrType) Pending Direct) []).
      { apply fresh_inv. by rewrite Hts. }
      rewrite Hts in HI.
      rewrite (started_slots _ _ _ _ _ HI). cbn [length q_workers app].
      f_equal. lia.
  - subst st. rewrite app_comm_cons, run_snoc.
    set (st := run st0 (Submit g :: post)) in *.
    destruct IH as (Q & HQ & Hst).
    destruct (submitted_queue r n pre g post) as (Q0 & HQ0 & _ & HI).
    fold st0 q st in HQ0, HI.
    assert (Q0 = Q) as -> by congruence.
    assert (Hcfg : runner st = r /\ concurrency st = n).
    { subst st. destruct (run_config st0 (Submit g :: post)) as [-> ->]. done. }
    assert (Hlt : q < length (heap st)) by (eapply lookup_lt_Some; eauto).
    destruct (settle_cases q Q inp) as [(i & task & -> & Hs')|Hno].
    + cbn [step].
      destruct (frame_rest q (workerDone q i st)) as (_ & _ & _ & Hh & ->).
      rewrite Hh by (by rewrite workerDone_length).
      rewrite starts_rest by (left; by rewrite workerDone_length).
      rewrite (workerDone_eq _ _ _ _ _ HQ Hs'). cbn [heap log].
      destruct Hcfg as [-> ->].
      eexists. split; [by apply list_lookup_insert_eq|].
      rewrite completions_starts, starts_startEvents. cbn [completions starts].
      rewrite !Nat.eqb_refl, Hst.
      pose proof (settle_inv _ _ _ _ _ _ _ HI Hs') as HI2. cbn zeta in HI2.
      rewrite (started_slots _ _ _ _ _ HI2).
      unfold workerDoneQ.
      set (Q2 := signal (taskOutcome r task) (pushResult i (taskOutcome r task) Q)) in *.
      assert (Hw2 : S (length (q_workers Q2)) = length (q_workers Q)).
      { subst Q2.
        destruct (signal_fields (taskOutcome r task)
                    (pushResult i (taskOutcome r task) Q)) as (_ & -> & _).
        cbn [pushResult q_workers].
        destruct (findSlot_split _ _ _ Hs') as (l1 & l2 & -> & ->).
        rewrite !length_app. cbn. lia. }
      assert (Hge : length (q_workers Q2) <= length (q_workers (startQ (Pos.to_nat n) Q2))).
      { unfold startQ. cbn [q_workers]. rewrite length_app. lia. }
      rewrite (length_app (completions q (log st)) [i]). cbn [length].
      replace (length (completions q (log st)) + 1 + length (q_workers Q2))
        with (length (completions q (log st)) + length (q_workers Q)) by lia.
      replace (length (completions q (log st)) + 1 +
               length (q_workers (startQ (Pos.to_nat n) Q2)))
        with (length (completions q (log st)) + length (q_workers Q) +
              (length (q_workers (startQ (Pos.to_nat n) Q2)) - length (q_workers Q2)))
        by lia.
      symmetry. exact (seq_app (length (completions q (log st)) + length (q_workers Q)) _ 0).
    + pose proof (Hno st HQ) as Hn.
      destruct (frame_step q st inp Hn) as (_ & _ & _ & Hh & ->).
      rewrite Hh, starts_step by auto. eauto.
Qed.

(** ** Beyond the specification: the executor *)

Lemma reachable_staffed r n ins q Q :
  heap (run (init r n) ins) !! q = Some Q -> staffed (Pos.to_nat n) Q.
Proof.
  intros HQ.
  assert (H : allStaffed (run (init r n) ins)).
  { apply run_staffed. unfold allStaffed. cbn. constructor. }
  unfold allStaffed in H.
  destruct (run_config (init r n) ins) as [_ Hc]. rewrite Hc in H.
  cbn [concurrency init] in H.
  eapply Forall_lookup_1; eauto.
Qed.

Lemma staffed_busy n Q :
  staffed (Pos.to_nat n) Q -> queueIdle Q = false -> q_workers Q <> [].
Proof.
  intros [_ Ht] Hidle Hnil. unfold queueIdle in Hidle.
  rewrite Hnil in *. cbn in *.
  destruct Ht as [Ht|Ht].
  - by rewrite Ht in Hidle.
  - pose proof (Pos2Nat.is_pos n). lia.
Qed.

(** X1: in every state the instance can reach, a queue has at most as
    many runner calls in flight as the concurrency limit the instance was
    constructed with; a task waits in a queue only while the limit is
    reached; and a queue that is not idle has a call in flight, so that
    it can always go on. *)
Theorem workers_within_limit r n ins q Q :
  heap (run (init r n) ins) !! q = Some Q ->
  length (q_workers Q) <= Pos.to_nat n /\
  (q_tasks Q <> [] -> length (q_workers Q) = Pos.to_nat n) /\
  (queueIdle Q = false -> q_workers Q <> []).
Proof.
  intros HQ. pose proof (reachable_staffed _ _ _ _ _ HQ) as Hs.
  split; [apply Hs|]. split.
  - intros Hne. by destruct Hs as [_ [?|?]].
  - by apply (staffed_busy n).
Qed.

Lemma workers_within_limit_witness :
  length (q_workers demoWaiting) <= Pos.to_nat 1 /\
  (q_tasks demoWaiting <> [] -> length (q_workers demoWaiting) = Pos.to_nat 1) /\
  (queueIdle demoWaiting = false -> q_workers demoWaiting <> []).
Proof.
  apply (workers_within_limit demoRunner 1
           [Submit (Group [demoTask "A"; demoTask "B"])] 0 demoWaiting).
  by vm_compute.
Defined.

(** X2: a future settles once.  Whatever the instance is asked to do
    afterwards and whatever runner calls settle, the future of a queue
    that has been resolved or rejected stays as it is: the [ok] of a
    later drain does not undo a rejection, and a later failure does not
    replace the first error. *)
Theorem settled_future_is_final st ins q Q :
  heap st !! q = Some Q -> future Q <> Pending ->
  exists Q', heap (run st ins) !! q = Some Q' /\ future Q' = future Q.
Proof.
  revert st Q. induction ins as [|inp ins IH]; intros st Q HQ Hf; [eauto|].
  destruct (settled_step st inp q Q HQ Hf) as (Q1 & HQ1 & Hf1).
  change (run st (inp :: ins)) with (run (step st inp) ins).
  destruct (IH _ _ HQ1) as (Q' & HQ' & Hf'); [congruence|].
  exists Q'. split; [done|congruence].
Qed.

Lemma settled_future_is_final_witness :
  exists Q',
    heap (run (run (init demoRunner 2)
                 [Submit (Group [demoTask "A"; demoTask "bad"]); Settle 0 1])
            [Settle 0 0]) !! 0 = Some Q' /\
    future Q' = future demoRejected.
Proof.
  apply (settled_future_is_final
           (run (init demoRunner 2)
              [Submit (Group [demoTask "A"; demoTask "bad"]); Settle 0 1])
           [Settle 0 0] 0 demoRejected).
  - by vm_compute.
  - by vm_compute.
Defined.

Lemma resultAt_leaves r (ts : list Task) i t :
  ts !! i = Some t -> leaves r t (resultAt r ts i).
Proof.
  intros Ht. unfold resultAt, leaves, taskOutcome. rewrite Ht.
  destruct (r (command t) (options t)) as [data|e]; [|done].
  by destruct (parsed t data).
Qed.

Lemma submitted_at r n pre g post :
  run (run (init r n) pre) (Submit g :: post)
  = run (init r n) (pre ++ Submit g :: post).
Proof. by rewrite run_app. Qed.

(** X3: the failure of a task does not stop its group.  In every run
    the accumulator of a submission holds one entry for each runner call
    that has settled, in the order in which they settled: the result of
    the task, or [undefined] when its call failed or its parser threw
    on the output of the call.  No call settles
    twice; while the queue is not idle a call is in flight; and once it
    is idle every task of the group has had its call, the failed ones
    included. *)
Theorem failure_does_not_stop_the_group r n pre g post :
  let st0 := run (init r n) pre in
  let q := length (heap st0) in
  let st := run st0 (Submit g :: post) in
  let done := completions q (log st) in
  exists Q, heap st !! q = Some Q /\
    Forall2 (fun v i => exists t, tasksOf g !! i = Some t /\ leaves r t v)
      (results Q) done /\
    List.NoDup done /\
    (queueIdle Q = false -> q_workers Q <> []) /\
    (queueIdle Q = true ->
     Permutation done (seq 0 (length (tasksOf g))) /\
     length (results Q) = length (tasksOf g)).
Proof.
  intros st0 q st done.
  destruct (submitted_queue r n pre g post) as (Q & HQ & _ & HI).
  fold st0 q st done in HQ, HI.
  exists Q. split; [exact HQ|]. split; [|split; [|split]].
  - rewrite (qi_results _ _ _ _ _ HI), map_fmap. apply Forall2_fmap_l.
    apply Forall_Forall2_diag, Forall_forall. intros i Hi.
    apply list_elem_of_In in Hi.
    pose proof (QueueInv_done_lt _ _ _ _ _ _ HI Hi) as Hlt.
    destruct (lookup_lt_is_Some_2 _ _ Hlt) as [t Ht].
    exists t. split; [exact Ht|]. by apply resultAt_leaves.
  - eapply List.NoDup_app_remove_r, Permutation_NoDup.
    + symmetry. apply (qi_perm _ _ _ _ _ HI).
    + apply seq_NoDup.
  - apply (staffed_busy n). subst st st0. rewrite submitted_at in HQ.
    eapply reachable_staffed; eauto.
  - intros Hidle. pose proof (QueueInv_idle _ _ _ _ _ HI Hidle) as Hp.
    split; [exact Hp|].
    by rewrite (qi_results _ _ _ _ _ HI), length_map, (Permutation_length Hp),
      length_seq.
Qed.

(** X4: the runner calls of a submission are made in submission order,
    one per task: the calls made so far are those of the first tasks of
    the group, each made once; they are the calls that have settled and
    those in flight; their number is the number of settled calls plus
    the concurrency limit, or the size of the group when that is less;
    and a call settles only after it was made. *)
Theorem runner_calls_in_submission_order r n pre g post :
  let st0 := run (init r n) pre in
  let q := length (heap st0) in
  let st := run st0 (Submit g :: post) in
  let done := completions q (log st) in
  let made := starts q (log st) in
  exists Q, heap st !! q = Some Q /\
    made = seq 0 (length made) /\
    length made = length done + length (q_workers Q) /\
    length made = min (length (tasksOf g)) (length done + Pos.to_nat n) /\
    Permutation (done ++ map fst (q_workers Q)) made.
Proof.
  intros st0 q st done made.
  destruct (submitted_queue r n pre g post) as (Q & HQ & _ & HI).
  destruct (submitted_starts r n pre g post) as (Q' & HQ' & Hst).
  fold st0 q st done in HQ, HI, HQ', Hst. fold made in Hst.
  assert (Q' = Q) as -> by congruence.
  assert (Hlen : length made = length done + length (q_workers Q)).
  { by rewrite Hst, length_seq. }
  exists Q. split; [exact HQ|]. split; [|split; [|split]].
  - by rewrite Hlen.
  - exact Hlen.
  - rewrite Hlen.
    assert (Hs : staffed (Pos.to_nat n) Q).
    { subst st st0. rewrite submitted_at in HQ. eapply reachable_staffed; eauto. }
    destruct Hs as [Hw Ht].
    pose proof (qi_bound _ _ _ _ _ HI) as Hb. fold done in Hb.
    destruct Ht as [Ht|Ht]; [|lia].
    pose proof (qi_tasks _ _ _ _ _ HI) as Hq. rewrite Ht in Hq.
    apply (f_equal length) in Hq. rewrite length_drop, slots_length in Hq.
    cbn in Hq. fold done in Hq. lia.
  - rewrite Hst. apply (qi_perm _ _ _ _ _ HI).
Qed.

(** X5: the future of a submission, in every run.  It is rejected with
    the error of the first task to settle with a failure (its runner
    call rejected, or its parser throwing on the output), from the
    moment the call of that task settles; otherwise it is pending while
    a call of the group
    has not settled, and resolved when the last one has: with the whole
    accumulator for a single task and with its first entry for an
    array of tasks. *)
Theorem future_of_submission r n pre g post :
  let st0 := run (init r n) pre in
  let q := length (heap st0) in
  let st := run st0 (Submit g :: post) in
  let done := completions q (log st) in
  exists Q, heap st !! q = Some Q /\
    future Q =
    match firstFailure r (tasksOf g) done with
    | Some e => Rejected e
    | None =>
        if queueIdle Q
        then Resolved (match g with
                       | Single _ => VArray (results Q)
                       | Group _ => hd VUndefined (results Q)
                       end)
        else Pending
    end.
Proof.
  intros st0 q st done.
  destruct (submitted_queue r n pre g post) as (Q & HQ & _ & HI).
  fold st0 q st done in HQ, HI.
  exists Q. split; [exact HQ|].
  rewrite (qi_future _ _ _ _ _ HI).
  destruct (firstFailure r (tasksOf g) done); [done|].
  destruct (Nat.eqb_spec (length done) (length (tasksOf g))) as [He|Hne].
  - destruct (QueueInv_complete _ _ _ _ _ HI He) as [_ ->].
    f_equal. unfold drainValue. rewrite (qi_flag _ _ _ _ _ HI).
    destruct g; [done|]. cbn. by destruct (results Q).
  - destruct (queueIdle Q) eqn:Hidle; [|done].
    pose proof (QueueInv_idle _ _ _ _ _ HI Hidle) as Hp.
    apply Permutation_length in Hp. rewrite length_seq in Hp. done.
Qed.

(** ** Beyond the specification: the registry *)

Lemma deregister_others q l :
  List.filter (fun x => negb (Nat.eqb x q)) (deregister q l)
  = List.filter (fun x => negb (Nat.eqb x q)) l.
Proof.
  induction l as [|x l IH]; [done|].
  rewrite deregister_cons.
  destruct (Nat.eqb x q) eqn:E; cbn [List.filter]; rewrite E; cbn [negb]; [done|].
  by rewrite IH.
Qed.

Lemma deregister_length q l :
  In q l -> S (length (deregister q l)) = length l.
Proof.
  induction l as [|x l IH]; [done|].
  rewrite deregister_cons. intros Hin.
  destruct (Nat.eqb_spec x q) as [->|Hne]; [done|].
  destruct Hin as [->|Hin]; [done|]. cbn [length]. by rewrite IH.
Qed.

Lemma deregister_gone q l : List.NoDup l -> ~ In q (deregister q l).
Proof.
  induction 1 as [|x l Hx Hnd IH]; [by intros []|].
  rewrite deregister_cons.
  destruct (Nat.eqb_spec x q) as [->|Hne]; [done|].
  intros [->|Hin]; [done|]. by apply IH.
Qed.

Lemma onQueueComplete_absent q st : ~ In q (queues st) -> onQueueComplete q st = st.
Proof.
  intros Hn. rewrite onQueueComplete_eq. state_ext.
  by apply deregister_absent.
Qed.

(** X6: [onQueueComplete(q)] takes [q], and nothing else, off the
    list of active queues.  The other queues stay, in their order; the
    list is one shorter when [q] was on it; when [q] is not on it the
    instance is left as it was (the guard on [indexOf] keeps [splice]
    from taking the last queue instead), so that the second call a queue
    makes when it has signalled an error and then drains changes
    nothing. *)
Theorem onQueueComplete_removes_only_q q st :
  let st' := onQueueComplete q st in
  (heap st' = heap st /\ chain st' = chain st /\ pending st' = pending st /\
   log st' = log st) /\
  List.filter (fun x => negb (Nat.eqb x q)) (queues st')
    = List.filter (fun x => negb (Nat.eqb x q)) (queues st) /\
  (In q (queues st) -> S (length (queues st')) = length (queues st)) /\
  (~ In q (queues st) -> st' = st) /\
  (List.NoDup (queues st) ->
   ~ In q (queues st') /\ onQueueComplete q st' = st').
Proof.
  intros st'. subst st'.
  split; [by rewrite onQueueComplete_eq|].
  split; [rewrite onQueueComplete_eq; apply deregister_others|].
  split; [rewrite onQueueComplete_eq; apply deregister_length|].
  split; [apply onQueueComplete_absent|].
  intros Hnd.
  assert (Hg : ~ In q (queues (onQueueComplete q st))).
  { rewrite onQueueComplete_eq. by apply deregister_gone. }
  split; [exact Hg|]. by apply onQueueComplete_absent.
Qed.

(** ** Beyond the specification: the chain *)

Lemma snd_slots (ts : list Task) : snd <$> slotsOf ts = ts.
Proof.
  apply list_eq. intros i. rewrite list_lookup_fmap, slots_lookup.
  by destruct (ts !! i).
Qed.

(** X7: the chain keeps the tasks it is handed in order.  In every
    run [pending] holds the tasks handed to [processChain] last, each
    under the number of its call, in the order of the calls.  While the
    chain awaits step [k], the task whose runner call is in flight is
    the [k]-th task handed to [processChain], which is the task whose
    handler the continuation captured, and [pending] holds the tasks
    after it; when the chain is fulfilled nothing is pending.  The
    continuations registered on the chain that have not run are those of
    the tasks in [pending], so that none of them finds [pending]
    empty. *)
Theorem chain_tracks_tasks_in_order r n ins :
  let st := run (init r n) ins in
  let ts := enqueued ins in
  let waiting := length (pending st) in
  pending st = chain_then st /\
  map snd (pending st) = drop (length ts - waiting) ts /\
  map fst (pending st) = seq (length ts - waiting) waiting /\
  match chain st with
  | ChainFulfilled => pending st = []
  | ChainAwaiting q k task =>
      ts !! k = Some task /\ S k + waiting = length ts /\
      exists Q, heap st !! q = Some Q /\
        q_tasks Q = [] /\ q_workers Q = [(0, task)] /\
        future Q = Pending /\ q_owner Q = Step k
  | ChainRejected _ => True
  end.
Proof.
  intros st ts waiting.
  pose proof (ChainInv_run r n ins) as HI. fold st ts in HI.
  pose proof (ci_pending _ _ HI) as Hp.
  pose proof (ci_then _ _ HI) as Ht. rewrite <- Hp in Ht. fold waiting in Ht.
  pose proof (then_length ts (pending st) Ht) as Hle. fold waiting in Hle.
  split; [exact Hp|]. split; [|split].
  - rewrite Ht at 1. by rewrite map_fmap, fmap_drop, snd_slots.
  - rewrite Ht at 1. rewrite map_fst_drop_slots. f_equal. lia.
  - pose proof (ci_status _ _ HI) as Hs.
    destruct (chain st) as [|q k task|e].
    + destruct Hs as (Hs & _). by rewrite Hp.
    + destruct Hs as (HQ & Hk & Hl & _).
      split; [done|]. split; [subst waiting; rewrite Hp; lia|].
      eexists. split; [exact HQ|]. done.
    + done.
Qed.

Lemma reactionOf_calls r k task :
  handlerCalls (fst (reactionOf r k task)) = callsOf r k task.
Proof.
  unfold reactionOf, callsOf.
  destruct (taskOutcome r task) as [v|e].
  - unfold fulfilledReaction. cbn [index0].
    destruct (handler task) as [h|] eqn:Hh.
    + destruct (h None v) as [u|e]; [done|].
      cbn [fst]. rewrite handlerCalls_app. unfold rejectedReaction.
      by rewrite Hh.
    + unfold rejectedReaction. by rewrite Hh.
  - unfold rejectedReaction. by destruct (handler task).
Qed.

(** X8: the handlers are invoked step by step.  In every run the
    invocations of handlers are, in order, those of the steps whose
    runner call has settled, in the order in which the tasks were handed
    to [processChain]: for each step the handler of its task is invoked
    with the error when the call failed and with [null] and the result
    when it succeeded, and once more, with what it threw, when that
    invocation threw; the handlers of later steps are not invoked before
    and no handler is invoked a third time. *)
Theorem handler_calls_by_step r n ins :
  let lg := log (run (init r n) ins) in
  handlerCalls lg =
  concat (imap (callsOf r)
            (take (length (runnerCalls lg) - openRuns lg) (enqueued ins))).
Proof.
  intros lg. subst lg.
  pose proof (ChainInv_run r n ins) as HI.
  set (st := run (init r n) ins) in *.
  rewrite (ci_handlers _ _ HI).
  assert (Hr : runner st = r).
  { subst st. by destruct (run_config (init r n) ins) as [-> _]. }
  rewrite Hr.
  assert (Hn : settledSteps st = length (runnerCalls (log st)) - openRuns (log st)).
  { pose proof (ci_status _ _ HI) as Hs.
    unfold settledSteps. unfold attempted in *.
    destruct (chain st) as [|q k task|e].
    - destruct Hs as (_ & _ & -> & _). lia.
    - destruct Hs as (_ & _ & _ & -> & -> & _). cbn. lia.
    - destruct Hs as (-> & _). lia. }
  rewrite Hn. f_equal. apply imap_ext. intros k t _. apply reactionOf_calls.
Qed.

Lemma workerDone_chain q i st :
  chain (workerDone q i st) = chain st /\
  pending (workerDone q i st) = pending st.
Proof.
  destruct (heap st !! q) as [Q|] eqn:HQ.
  - destruct (findSlot i (q_workers Q)) as [task|] eqn:Hs.
    + by rewrite (workerDone_eq _ _ _ _ _ HQ Hs).
    + rewrite workerDone_noop; [done|]. by rewrite HQ.
  - rewrite workerDone_noop; [done|]. by rewrite HQ.
Qed.

Lemma rejected_step_pending st inp e :
  chain st = ChainRejected e ->
  map snd (pending (step st inp)) = map snd (pending st) ++ enqueued [inp].
Proof.
  intros Hc. destruct inp as [g|t|q i]; cbn [step enqueued].
  - rewrite process_eq. cbn [snd].
    destruct (tasksOf g); cbn [pending]; by rewrite app_nil_r.
  - rewrite processChain_waiting by (by rewrite Hc). cbn [pending].
    by rewrite map_app.
  - destruct (workerDone_chain q i st) as [Hc' Hp'].
    rewrite Hc in Hc'.
    assert (Hr : chainReact (workerDone q i st) = workerDone q i st).
    { unfold chainReact. by rewrite Hc'. }
    rewrite Hr. unfold chainAdvance. rewrite Hc', Hp'. by rewrite app_nil_r.
Qed.

(** X9: a rejected chain stays rejected, with the same error.  Once a
    handler has thrown on the error it was handed, whatever the instance
    is asked to do and whatever runner calls settle, no step of the chain
    is run and no handler is invoked again; the tasks handed to
    [processChain] from then on pile up in [pending], in order, behind
    those that were waiting. *)
Theorem rejected_chain_keeps_tasks_pending r n ins more e :
  let st := run (init r n) ins in
  let st' := run (init r n) (ins ++ more) in
  chain st = ChainRejected e ->
  chain st' = ChainRejected e /\
  map snd (pending st') = map snd (pending st) ++ enqueued more /\
  runnerCalls (log st') = runnerCalls (log st) /\
  handlerCalls (log st') = handlerCalls (log st).
Proof.
  intros st st' Hc. subst st st'.
  induction more as [|inp more IH] using rev_ind.
  - rewrite !app_nil_r. done.
  - rewrite app_assoc, run_snoc, enqueued_app.
    destruct IH as (Hc' & Hp & Hr & Hh).
    pose proof (ChainInv_run r n (ins ++ more)) as HI.
    destruct (rejected_step _ _ inp _ HI Hc') as (-> & -> & ->).
    rewrite (rejected_step_pending _ inp _ Hc'), Hp, app_assoc. done.
Qed.

Lemma rejected_chain_keeps_tasks_pending_witness :
  chain (run (init demoRunner 1)
           ([Enqueue (demoChained "bad" rethrowingHandler); Settle 0 0]
            ++ [Enqueue (demoChained "B" quietHandler)]))
  = ChainRejected (MkError "boom").
Proof.
  refine (proj1 (rejected_chain_keeps_tasks_pending demoRunner 1
                   [Enqueue (demoChained "bad" rethrowingHandler); Settle 0 0]
                   [Enqueue (demoChained "B" quietHandler)] (MkError "boom") _)).
  by vm_compute.
Defined.

(** ** Beyond the specification: the operations *)

Lemma leadingStrings_prefix (ss : list string) (rest : list Arg) :
  (forall s rest', rest <> AString s :: rest') ->
  leadingStrings (map AString ss ++ rest) = ss.
Proof.
  intros Hr. induction ss as [|s ss IH]; cbn.
  - destruct rest as [|a rest']; [done|].
    destruct a; try done. exfalso. by eapply Hr.
  - by rewrite IH.
Qed.

(** X10: the command of [clone].  When the arguments begin with the
    strings [ss] and go on with an argument that is not a string (or
    end there), the command handed to the task builder is the trailing
    array argument followed by [ss], in order: the loop stops at the
    first argument that is not a string, and a string after it is not
    added.  The task built is routed by its handler. *)
Theorem clone_takes_leading_strings
    (trailingArrayArgument : list Arg -> list string)
    (trailingOptionsArgument : list Arg -> Options)
    (trailingFunctionArgument : list Arg -> option Handler)
    (commands_clone : list string -> Options -> option Handler -> Task)
    (ss : list string) (rest : list Arg) (st : State) :
  (forall s rest', rest <> AString s :: rest') ->
  let args := map AString ss ++ rest in
  let task := commands_clone (trailingArrayArgument args ++ ss)
                (trailingOptionsArgument args) (trailingFunctionArgument args) in
  leadingStrings args = ss /\
  clone trailingArrayArgument trailingOptionsArgument trailingFunctionArgument
    commands_clone args st
  = match handler task with
    | Some _ => (ReturnsThis, processChain task st)
    | None =>
        (ReturnsPromise (length (heap st)), snd (process (Single task) Direct st))
    end.
Proof.
  intros Hr args task.
  pose proof (leadingStrings_prefix ss rest Hr) as Hl. fold args in Hl.
  split; [exact Hl|].
  unfold clone. rewrite Hl. fold task. unfold isAsyncHandler.
  destruct (handler task); cbn [negb]; [done|].
  rewrite (surjective_pairing (process (Single task) Direct st)).
  by rewrite process_fst.
Qed.

Lemma clone_takes_leading_strings_witness :
  leadingStrings (map AString ["repo"; "dir"]%string
                    ++ [AArray ["--bare"%string]; AString "late"])
  = ["repo"; "dir"]%string.
Proof.
  refine (proj1 (clone_takes_leading_strings
                   (fun _ => ["--bare"%string]) (fun _ => []) (fun _ => None)
                   (fun c o h => mkTask c o None h)
                   ["repo"; "dir"]%string
                   [AArray ["--bare"%string]; AString "late"]
                   (init demoRunner 1) _)).
  intros s rest'. discriminate.
Defined.

(** ** Beyond the specification: queues and the chain side by side *)

(** X11: a queue is changed by the settling of its own runner calls
    and by nothing else.  Whatever state the instance is in, a call of
    [process] or [processChain], the settling of a call of another queue
    and the steps of the chain that follow leave the tasks, workers,
    accumulator and future of queue [q] as they were, and make and settle
    no runner call of [q]. *)
Theorem queues_are_isolated st inp q Q :
  heap st !! q = Some Q ->
  (forall i, inp <> Settle q i) ->
  heap (step st inp) !! q = Some Q /\
  completions q (log (step st inp)) = completions q (log st) /\
  starts q (log (step st inp)) = starts q (log st).
Proof.
  intros HQ Hne.
  assert (Hlt : q < length (heap st)) by (eapply lookup_lt_Some; eauto).
  assert (Hn : forall i, inp = Settle q i -> workerDone q i st = st).
  { intros i ->. by destruct (Hne i). }
  destruct (frame_step q st inp Hn) as (_ & _ & _ & Hh & Hc).
  split; [by rewrite Hh|]. split; [exact Hc|].
  apply starts_step; auto.
Qed.

Lemma queues_are_isolated_witness :
  heap (step (run (init demoRunner 1)
                [Submit (Group [demoTask "A"; demoTask "B"])])
          (Submit (Single (demoTask "C")))) !! 0 = Some demoWaiting /\
  completions 0
    (log (step (run (init demoRunner 1)
                  [Submit (Group [demoTask "A"; demoTask "B"])])
            (Submit (Single (demoTask "C")))))
  = completions 0
      (log (run (init demoRunner 1)
              [Submit (Group [demoTask "A"; demoTask "B"])])) /\
  starts 0
    (log (step (run (init demoRunner 1)
                  [Submit (Group [demoTask "A"; demoTask "B"])])
            (Submit (Single (demoTask "C")))))
  = starts 0
      (log (run (init demoRunner 1)
              [Submit (Group [demoTask "A"; demoTask "B"])])).
Proof.
  apply (queues_are_isolated
           (run (init demoRunner 1) [Submit (Group [demoTask "A"; demoTask "B"])])
           (Submit (Single (demoTask "C"))) 0 demoWaiting).
  - by vm_compute.
  - intros i. discriminate.
Defined.

(** X12: work submitted through [process] leaves the chain alone.  In
    every state the instance can reach, a call of [process] and the
    settling of a runner call of a queue that [process] was called for
    directly change neither the chain nor [pending], make and settle no
    runner call for a step of the chain and invoke no handler. *)
Theorem direct_work_leaves_chain_alone r n ins inp :
  let st := run (init r n) ins in
  let st' := step st inp in
  match inp with
  | Submit _ => True
  | Enqueue _ => False
  | Settle q _ => exists Q, heap st !! q = Some Q /\ q_owner Q = Direct
  end ->
  chain st' = chain st /\ pending st' = pending st /\
  runnerCalls (log st') = runnerCalls (log st) /\
  openRuns (log st') = openRuns (log st) /\
  handlerCalls (log st') = handlerCalls (log st).
Proof.
  intros st st' Hinp. subst st'.
  pose proof (ChainInv_run r n ins) as HI. fold st in HI.
  destruct inp as [g|t|q i]; [|done|].
  - cbn [step]. rewrite process_eq. cbn [snd].
    destruct (tasksOf g) as [|t l]; cbn [chain pending log]; [done|].
    destruct (startEvents_direct (length (heap st))
                (mkQueue (slotsOf (t :: l)) [] []
                   (String.eqb (varType g) arrType) Pending Direct)
                (Pos.to_nat (concurrency st)) eq_refl) as [Hoff Hno].
    by rewrite runnerCalls_offChain, openRuns_offChain, handlerCalls_app, Hno,
      app_nil_r.
  - destruct Hinp as (Q & HQ & HO).
    destruct (findSlot i (q_workers Q)) as [task|] eqn:Hs.
    2:{ cbn [step]. rewrite workerDone_noop by (by rewrite HQ).
        by rewrite (rest_noop _ _ HI). }
    cbn [step].
    pose proof (ChainInv_workerDone_direct _ st q i Q HQ HO HI) as HW.
    rewrite (rest_noop _ _ HW).
    rewrite (workerDone_eq _ _ _ _ _ HQ Hs). cbn [chain pending log].
    set (out := taskOutcome (runner st) task).
    assert (HO1 : q_owner (signal out (pushResult i out Q)) = Direct).
    { by destruct (signal_fields out (pushResult i out Q)) as (_ & _ & _ & _ & ->). }
    destruct (startEvents_direct q _ (Pos.to_nat (concurrency st)) HO1)
      as [Hoff Hno].
    rewrite runnerCalls_offChain, openRuns_offChain, handlerCalls_app, Hno by done.
    rewrite HO. by rewrite app_nil_r.
Qed.

Lemma direct_work_leaves_chain_alone_witness :
  chain (step (run (init demoRunner 1)
                 [Enqueue (demoChained "A" quietHandler);
                  Submit (Single (demoTask "B"))])
           (Settle 1 0))
  = chain (run (init demoRunner 1)
             [Enqueue (demoChained "A" quietHandler);
              Submit (Single (demoTask "B"))]).
Proof.
  refine (proj1 (direct_work_leaves_chain_alone demoRunner 1
                   [Enqueue (demoChained "A" quietHandler);
                    Submit (Single (demoTask "B"))]
                   (Settle 1 0) _)).
  eexists. split; by vm_compute.
Defined.
